(** * claude-desktop-mcp: shell and filesystem MCP servers

    A shallow embedding of the two servers of the repository that touch
    the host: the shell server ([getShellEnv], [run_command], [get_env])
    and the filesystem server ([normalizePath], [list_files],
    [read_file], [write_file], [edit_file], [delete_file]), and of the
    request that the paper server sends.

    Conventions of the embedding.
    - JavaScript strings are [string]; a template literal is a chain of
      [+:+].  File contents are text that the utf8 codec of
      [readFileSync]/[writeFileSync] carries unchanged.
    - The numbers that occur (the timeout, an exit code) are integers,
      modelled as [Z] and printed in decimal, as a template literal
      prints the integers of JavaScript's safe range.
    - [process.env], a JavaScript object used as a string-to-string map,
      is a [gmap string string].
    - Node's [path] module is modelled in its POSIX flavour, at the level
      of path segments. *)

From Stdlib Require Import ZArith Lia Ascii String.
From stdpp Require Import base option list strings gmap pretty.

Local Open Scope string_scope.

(** ** Strings *)

Module Str.

(** [s.startsWith(p)] *)
Definition startsWith (s p : string) : bool := String.prefix p s.

(** JavaScript truthiness of a string: only the empty string is falsy. *)
Definition truthy (s : string) : bool :=
  match s with EmptyString => false | String _ _ => true end.

(** [a || b] on strings *)
Definition or_else (a b : string) : string := if truthy a then a else b.

(** [s.split(sep)] for a one-character separator: always at least one
    piece; [cur] is the piece being read. *)
Fixpoint split_go (sep : ascii) (cur : string) (s : string) : list string :=
  match s with
  | EmptyString => [String.rev cur]
  | String c s' =>
      if Ascii.eqb c sep then String.rev cur :: split_go sep EmptyString s'
      else split_go sep (String c cur) s'
  end.

Definition split (sep : ascii) (s : string) : list string :=
  split_go sep EmptyString s.

(** last character of a string, if any *)
Fixpoint last_char (s : string) : option ascii :=
  match s with
  | EmptyString => None
  | String c EmptyString => Some c
  | String _ s' => last_char s'
  end.

Definition first_char (s : string) : option ascii :=
  match s with EmptyString => None | String c _ => Some c end.

(** the line feed written [\n] in the source *)
Definition nl : string := String (ascii_of_nat 10) EmptyString.

End Str.

(** ** Node's [path] module (POSIX) *)

Module Path.

Definition slash : ascii := "/"%char.

Definition isAbsolute (p : string) : bool :=
  match Str.first_char p with
  | Some c => Ascii.eqb c slash
  | None => false
  end.

Definition hasTrailingSeparator (p : string) : bool :=
  match Str.last_char p with
  | Some c => Ascii.eqb c slash
  | None => false
  end.

(** One step of [normalizeString]: [res] holds the segments kept so far,
    last one first.  Empty and ["."] segments are dropped; [".."] removes
    the last kept segment, unless there is none or it is itself [".."],
    in which case it is kept only when [allowAboveRoot]. *)
Definition push_segment (allowAboveRoot : bool) (res : list string)
    (seg : string) : list string :=
  if String.eqb seg "" then res
  else if String.eqb seg "." then res
  else if String.eqb seg ".." then
    match res with
    | last :: rest =>
        if String.eqb last ".."
        then (if allowAboveRoot then seg :: res else res)
        else rest
    | [] => if allowAboveRoot then [seg] else []
    end
  else seg :: res.

Definition normalizeSegments (allowAboveRoot : bool) (p : string)
    : list string :=
  rev (fold_left (push_segment allowAboveRoot) (Str.split slash p) []).

Definition normalizeString (p : string) (allowAboveRoot : bool) : string :=
  String.concat "/" (normalizeSegments allowAboveRoot p).

(** [path.normalize] *)
Definition normalize (p : string) : string :=
  if String.eqb p "" then "."
  else
    let abs := isAbsolute p in
    let trailing := hasTrailingSeparator p in
    let q := normalizeString p (negb abs) in
    if String.eqb q "" then
      (if abs then "/" else if trailing then "./" else ".")
    else
      let q' := if trailing then q +:+ "/" else q in
      if abs then "/" +:+ q' else q'.

(** The right-to-left loop of [path.resolve]: [args] is read from its
    last element; empty arguments are skipped; the loop stops at the
    first absolute one.  When the arguments run out, [process.cwd()] is
    used.  Returns the string built and whether it is absolute. *)
Fixpoint resolve_loop (rev_args : list string) (cwd : string)
    (resolvedPath : string) : string * bool :=
  match rev_args with
  | [] =>
      if String.eqb cwd "" then (resolvedPath, false)
      else (cwd +:+ "/" +:+ resolvedPath, isAbsolute cwd)
  | p :: rest =>
      if String.eqb p "" then resolve_loop rest cwd resolvedPath
      else
        let resolvedPath' := p +:+ "/" +:+ resolvedPath in
        if isAbsolute p then (resolvedPath', true)
        else resolve_loop rest cwd resolvedPath'
  end.

(** [path.resolve(...args)] in a process whose working directory is
    [cwd]. *)
Definition resolve (cwd : string) (args : list string) : string :=
  let '(resolvedPath, resolvedAbsolute) := resolve_loop (rev args) cwd "" in
  let q := normalizeString resolvedPath (negb resolvedAbsolute) in
  if resolvedAbsolute then "/" +:+ q
  else if String.eqb q "" then "." else q.

(** [path.join(...args)] *)
Definition join (args : list string) : string :=
  match filter (fun a => a ≠ "") args with
  | [] => "."
  | parts => normalize (String.concat "/" parts)
  end.

(** The segments of a normalized absolute path. *)
Definition segments (p : string) : list string :=
  normalizeSegments false p.

Definition of_segments (segs : list string) : string :=
  "/" +:+ String.concat "/" segs.

(** [path.dirname] of a normalized absolute path: the path without its
    last segment; the root is its own parent. *)
Definition dirname (p : string) : string :=
  of_segments (removelast (segments p)).

(** A string without path separator. *)
Fixpoint slashfree (s : string) : bool :=
  match s with
  | EmptyString => true
  | String c s' => negb (Ascii.eqb c slash) && slashfree s'
  end.

(** A segment that names an entry: no separator, not empty, neither
    ["."] nor [".."]. *)
Definition plain (seg : string) : bool :=
  slashfree seg && negb (String.eqb seg "") && negb (String.eqb seg ".")
  && negb (String.eqb seg "..").

(** The segments two paths do not share, once the common leading ones
    are dropped. *)
Fixpoint strip_common (a b : list string) : list string * list string :=
  match a, b with
  | x :: a', y :: b' =>
      if String.eqb x y then strip_common a' b' else (a, b)
  | _, _ => (a, b)
  end.

(** [path.relative(from, to)] in a process whose working directory is
    [cwd]: as many [".."] as [from] has segments of its own, then the
    segments of [to]. *)
Definition relative (cwd from to : string) : string :=
  if String.eqb from to then ""
  else
    let from := resolve cwd [from] in
    let to := resolve cwd [to] in
    if String.eqb from to then ""
    else
      let '(up, down) := strip_common (segments from) (segments to) in
      String.concat "/" (map (fun _ => "..") up ++ down)%list.

End Path.

(** ** Exceptions and the filesystem

    The [fs] calls of both servers are synchronous and either return or
    throw an [Error] carrying a message.  A computation is a function of
    the filesystem returning a [result] and the filesystem it leaves. *)

Inductive result (A : Type) : Type :=
  | Ok (a : A)
  | Throw (message : string).
Arguments Ok {A} a.
Arguments Throw {A} message.

Module Fs.

(** What a path names: a regular file with its text, or a directory. *)
Inductive node : Type :=
  | File (content : string)
  | Dir.

Definition isFile (n : node) : bool :=
  match n with File _ => true | Dir => false end.

Definition isDirectory (n : node) : bool :=
  match n with File _ => false | Dir => true end.

(** The filesystem, keyed by the path string handed to [fs]. *)
Abbreviation FS := (gmap string node).

Definition M (A : Type) : Type := FS -> result A * FS.

Definition ret {A} (a : A) : M A := fun fs => (Ok a, fs).

Definition throw {A} (message : string) : M A := fun fs => (Throw message, fs).

Definition bind {A B} (m : M A) (k : A -> M B) : M B :=
  fun fs =>
    match m fs with
    | (Ok a, fs') => k a fs'
    | (Throw message, fs') => (Throw message, fs')
    end.

(** [try { body } catch (error) { handler(error.message) }] *)
Definition try_catch {A} (body : M A) (handler : string -> M A) : M A :=
  fun fs =>
    match body fs with
    | (Ok a, fs') => (Ok a, fs')
    | (Throw message, fs') => handler message fs'
    end.

Definition lift {A} (r : result A) : M A := fun fs => (r, fs).

Definition ENOENT (syscall p : string) : string :=
  "ENOENT: no such file or directory, " +:+ syscall +:+ " '" +:+ p +:+ "'".
Definition EISDIR (syscall p : string) : string :=
  "EISDIR: illegal operation on a directory, " +:+ syscall +:+ " '" +:+ p +:+ "'".
Definition ENOTDIR (syscall p : string) : string :=
  "ENOTDIR: not a directory, " +:+ syscall +:+ " '" +:+ p +:+ "'".
Definition EEXIST (syscall p : string) : string :=
  "EEXIST: file already exists, " +:+ syscall +:+ " '" +:+ p +:+ "'".

(** [fs.existsSync(p)] never throws. *)
Definition exists_in (fs : FS) (p : string) : bool :=
  match fs !! p with Some _ => true | None => false end.

Definition existsSync (p : string) : M bool :=
  fun fs => (Ok (exists_in fs p), fs).

(** [fs.statSync(p)] *)
Definition statSync (p : string) : M node :=
  fun fs =>
    match fs !! p with
    | Some n => (Ok n, fs)
    | None => (Throw (ENOENT "stat" p), fs)
    end.

(** [fs.readFileSync(p, 'utf8')] *)
Definition readFileSync (p : string) : M string :=
  fun fs =>
    match fs !! p with
    | Some (File content) => (Ok content, fs)
    | Some Dir => (Throw (EISDIR "read" p), fs)
    | None => (Throw (ENOENT "open" p), fs)
    end.

(** The paths the host refuses whatever the disk holds.  [fs] throws
    before any system call for a path string that holds a NUL character;
    the system refuses a path of [PATH_MAX] bytes or more, and an entry
    whose name has more than [NAME_MAX] bytes (the values of Linux). *)
Definition NAME_MAX : nat := 255.
Definition PATH_MAX : nat := 4096.

Fixpoint has_nul (s : string) : bool :=
  match s with
  | EmptyString => false
  | String c s' => Ascii.eqb c Ascii.zero || has_nul s'
  end.

Definition ERR_INVALID_ARG_VALUE (p : string) : string :=
  "The argument 'path' must be a string, Uint8Array, or URL without null bytes. Received '"
  +:+ p +:+ "'".
Definition ENAMETOOLONG (syscall p : string) : string :=
  "ENAMETOOLONG: name too long, " +:+ syscall +:+ " '" +:+ p +:+ "'".

(** The error of a call that is refused for the path string as a whole. *)
Definition refused (syscall p : string) : option string :=
  if has_nul p then Some (ERR_INVALID_ARG_VALUE p)
  else if (PATH_MAX <=? String.length p)%nat then Some (ENAMETOOLONG syscall p)
  else None.

(** Whether an entry can be made under the last name of [p]. *)
Definition short_name (p : string) : bool :=
  match last (Path.segments p) with
  | Some name => (String.length name <=? NAME_MAX)%nat
  | None => true
  end.

(** A path under which the host can make an entry, and the directories
    on the way to it. *)
Definition nameable (p : string) : bool :=
  negb (has_nul p) && (String.length p <? PATH_MAX)%nat &&
  forallb (fun name => (String.length name <=? NAME_MAX)%nat) (Path.segments p).

(** [fs.writeFileSync(p, content, 'utf8')]: replaces a regular file,
    creates one in an existing directory under a name the host takes,
    and throws otherwise. *)
Definition writeFileSync (p content : string) : M unit :=
  fun fs =>
    match fs !! p with
    | Some (File _) => (Ok tt, <[p := File content]> fs)
    | Some Dir => (Throw (EISDIR "open" p), fs)
    | None =>
        match refused "open" p with
        | Some message => (Throw message, fs)
        | None =>
            match fs !! Path.dirname p with
            | Some Dir =>
                if short_name p then (Ok tt, <[p := File content]> fs)
                else (Throw (ENAMETOOLONG "open" p), fs)
            | Some (File _) => (Throw (ENOTDIR "open" p), fs)
            | None => (Throw (ENOENT "open" p), fs)
            end
        end
    end.

(** The directory and all its ancestors, the root first. *)
Definition ancestors_and_self (p : string) : list string :=
  let segs := Path.segments p in
  map (fun n => Path.of_segments (take n segs)) (seq 0 (S (length segs))).

Definition mkdir_step (p : string) (acc : result unit * FS) (d : string)
    : result unit * FS :=
  match acc with
  | (Ok _, fs) =>
      match fs !! d with
      | Some Dir => (Ok tt, fs)
      | Some (File _) => (Throw (EEXIST "mkdir" p), fs)
      | None =>
          if short_name d then (Ok tt, <[d := Dir]> fs)
          else (Throw (ENAMETOOLONG "mkdir" p), fs)
      end
  | (Throw message, fs) => (Throw message, fs)
  end.

(** [fs.mkdirSync(p, { recursive: true })]: creates every missing
    directory on the way to [p]; throws when one of them is a regular
    file or cannot be named, the directories before it being made. *)
Definition mkdirSync_recursive (p : string) : M unit :=
  fun fs =>
    match refused "mkdir" p with
    | Some message => (Throw message, fs)
    | None => fold_left (mkdir_step p) (ancestors_and_self p) (Ok tt, fs)
    end.

(** [fs.unlinkSync(p)] *)
Definition unlinkSync (p : string) : M unit :=
  fun fs =>
    match fs !! p with
    | Some (File _) => (Ok tt, delete p fs)
    | Some Dir => (Throw (EISDIR "unlink" p), fs)
    | None => (Throw (ENOENT "unlink" p), fs)
    end.

(** The name under which [k] is an entry of the directory [dir]. *)
Definition entry_name (dir k : string) : option string :=
  if decide (k <> dir /\ Path.dirname k = dir) then last (Path.segments k)
  else None.

(** [fs.readdirSync(dir)]: the names of the entries of [dir], in the
    order the filesystem enumerates them. *)
Definition readdirSync (dir : string) : M (list string) :=
  fun fs =>
    match fs !! dir with
    | Some Dir => (Ok (omap (entry_name dir) (map fst (map_to_list fs))), fs)
    | Some (File _) => (Throw (ENOTDIR "scandir" dir), fs)
    | None => (Throw (ENOENT "scandir" dir), fs)
    end.

(** [items.forEach(item => ...)] where the callback updates [s]. *)
Fixpoint forEach {A S : Type} (items : list A) (s : S) (f : A -> S -> M S)
    : M S :=
  match items with
  | [] => ret s
  | item :: rest => bind (f item s) (fun s' => forEach rest s' f)
  end.

(** A filesystem whose paths are absolute and normalized. *)
Definition canonical (fs : FS) : Prop :=
  forall k n, fs !! k = Some n -> Path.of_segments (Path.segments k) = k.

(** [k] is reached from [dir] through entries of directories. *)
Inductive below (fs : FS) : string -> string -> Prop :=
  | below_entry dir k :
      is_Some (fs !! k) -> k <> dir -> Path.dirname k = dir ->
      below fs dir k
  | below_deeper dir d k :
      fs !! d = Some Dir -> d <> dir -> Path.dirname d = dir ->
      below fs d k ->
      below fs dir k.

(** [k] lies inside [dir]: its segments continue those of [dir], and
    every path in between is a directory. *)
Definition inside (fs : FS) (dir k : string) : Prop :=
  exists rest,
    rest <> [] /\
    Path.segments k = (Path.segments dir ++ rest)%list /\
    forall n, 0 < n < length rest ->
      fs !! Path.of_segments (Path.segments dir ++ take n rest)%list = Some Dir.

(** How deep the directories of a filesystem can nest: no path has more
    segments. *)
Definition depth (fs : FS) : nat :=
  max_list (map (fun kv => length (Path.segments (fst kv))) (map_to_list fs)).

End Fs.

Notation "x <- e ;; k" := (Fs.bind e (fun x => k))
  (at level 100, e at next level, right associativity).
Notation "e ;;; k" := (Fs.bind e (fun _ => k))
  (at level 100, right associativity).

(** ** The filesystem server *)

Module FsServer.

Section Server.

(** [process.cwd()] and [baseDir = process.argv[2] || process.cwd()] *)
Variable cwd : string.
Variable baseDir : string.

(** [diffLib.createPatch(fileName, oldStr, newStr, oldHeader, newHeader)],
    from the [diff] package. *)
Variable createPatch : string -> string -> string -> string -> string -> string.

(** [minimatch.default(file, pattern)], from the [minimatch] package. *)
Variable minimatch : string -> string -> bool.

(** [normalizePath]: returns the normalized path or throws. *)
Definition normalizePath (filePath : string) : result string :=
  let normalizedPath := Path.normalize (Path.resolve cwd [baseDir; filePath]) in
  if negb (Str.startsWith normalizedPath baseDir) then
    Throw ("Access denied: " +:+ filePath +:+ " is outside the base directory")
  else Ok normalizedPath.

(** The [read_file] tool.  Everything thrown here is an [Error], so the
    [catch] block always takes its first branch. *)
Definition read_file (filePath : string) : Fs.M string :=
  Fs.try_catch
    (normalizedPath <- Fs.lift (normalizePath filePath) ;;
     present <- Fs.existsSync normalizedPath ;;
     if negb present then
       Fs.ret ("Error: File '" +:+ filePath +:+ "' does not exist")
     else
       stat <- Fs.statSync normalizedPath ;;
       if negb (Fs.isFile stat) then
         Fs.ret ("Error: '" +:+ filePath +:+ "' is not a file")
       else
         content <- Fs.readFileSync normalizedPath ;;
         Fs.ret content)
    (fun message => Fs.ret ("Error reading file: " +:+ message)).

(** The [write_file] tool. *)
Definition write_file (filePath content : string) : Fs.M string :=
  Fs.try_catch
    (normalizedPath <- Fs.lift (normalizePath filePath) ;;
     let directory := Path.dirname normalizedPath in
     present <- Fs.existsSync directory ;;
     (if negb present then Fs.mkdirSync_recursive directory else Fs.ret tt) ;;;
     Fs.writeFileSync normalizedPath content ;;;
     Fs.ret ("File '" +:+ filePath +:+ "' has been written successfully"))
    (fun message => Fs.ret ("Error writing file: " +:+ message)).

(** The [edit_file] tool. *)
Definition edit_file (filePath newContent : string) : Fs.M string :=
  Fs.try_catch
    (normalizedPath <- Fs.lift (normalizePath filePath) ;;
     present <- Fs.existsSync normalizedPath ;;
     if negb present then
       Fs.ret ("Error: File '" +:+ filePath +:+ "' does not exist")
     else
       oldContent <- Fs.readFileSync normalizedPath ;;
       let diff := createPatch filePath oldContent newContent "Old" "New" in
       Fs.writeFileSync normalizedPath newContent ;;;
       Fs.ret ("File '" +:+ filePath +:+ "' has been edited successfully."
               +:+ Str.nl +:+ Str.nl +:+ "Changes:" +:+ Str.nl +:+ diff))
    (fun message => Fs.ret ("Error editing file: " +:+ message)).

(** The [delete_file] tool. *)
Definition delete_file (filePath : string) : Fs.M string :=
  Fs.try_catch
    (normalizedPath <- Fs.lift (normalizePath filePath) ;;
     present <- Fs.existsSync normalizedPath ;;
     if negb present then
       Fs.ret ("Error: File '" +:+ filePath +:+ "' does not exist")
     else
       stat <- Fs.statSync normalizedPath ;;
       if negb (Fs.isFile stat) then
         Fs.ret ("Error: '" +:+ filePath +:+ "' is not a file")
       else
         Fs.unlinkSync normalizedPath ;;;
         Fs.ret ("File '" +:+ filePath +:+ "' has been deleted successfully"))
    (fun message => Fs.ret ("Error deleting file: " +:+ message)).

(** [getAllFiles] of [list_files]: the files below [dir], as paths
    relative to the base directory, appended to the shared [filesList].
    [frames] is the room left on the call stack. *)
Fixpoint getAllFiles (frames : nat) (dir : string) (filesList : list string)
    : Fs.M (list string) :=
  match frames with
  | 0 => Fs.throw "Maximum call stack size exceeded"
  | S frames' =>
      files <- Fs.readdirSync dir ;;
      Fs.forEach files filesList (fun file filesList =>
        let filePath := Path.join [dir; file] in
        stat <- Fs.statSync filePath ;;
        if Fs.isDirectory stat then getAllFiles frames' filePath filesList
        else
          let relativePath := Path.relative cwd baseDir filePath in
          Fs.ret (filesList ++ [relativePath])%list)
  end.

(** The [list_files] tool; [directory] defaults to ['.'].  The call stack
    has room for any nesting the filesystem can hold. *)
Definition list_files (pattern : string) (directory_arg : option string)
    : Fs.M string :=
  let directory := default "." directory_arg in
  Fs.try_catch
    (searchDir <- Fs.lift (normalizePath directory) ;;
     present <- Fs.existsSync searchDir ;;
     unusable <- (if negb present then Fs.ret true
                  else stat <- Fs.statSync searchDir ;;
                       Fs.ret (negb (Fs.isDirectory stat))) ;;
     if unusable then
       Fs.ret ("Error: Directory '" +:+ directory
               +:+ "' does not exist or is not a directory")
     else
       allFiles <- (fun fs => getAllFiles (S (Fs.depth fs)) searchDir [] fs) ;;
       let matchingFiles :=
         List.filter (fun file => minimatch file pattern) allFiles in
       if (length matchingFiles =? 0)%nat then
         Fs.ret ("No files matching pattern '" +:+ pattern +:+ "' found in '"
                 +:+ directory +:+ "'")
       else Fs.ret (String.concat Str.nl matchingFiles))
    (fun message => Fs.ret ("Error listing files: " +:+ message)).

End Server.

End FsServer.

(** ** The shell server *)

Module ShellServer.

(** *** The environment handed to spawned commands *)

Abbreviation Env := (gmap string string).

(** [!env.PATH]: true when the variable is missing and when it is the
    empty string. *)
Definition not_set (value : option string) : bool :=
  match value with
  | Some v => negb (Str.truthy v)
  | None => true
  end.

(** The [PATH] built when none is usable; [homeDir] is [os.homedir()]. *)
Definition default_PATH (homeDir : string) : string :=
  let PATH := "/usr/local/bin:/usr/bin:/bin:/usr/sbin:/sbin" in
  let PATH := PATH +:+ ":" +:+ Path.join [homeDir; ".local/bin"] in
  let PATH := PATH +:+ ":" +:+ Path.join [homeDir; "bin"] in
  let PATH := PATH +:+ ":" +:+ Path.join [homeDir; ".nvm/current/bin"] in
  let PATH := PATH +:+ ":" +:+ Path.join [homeDir; ".bun/bin"] in
  let PATH := PATH +:+ ":" +:+ Path.join [homeDir; ".deno/bin"] in
  let PATH := PATH +:+ ":" +:+ Path.join [homeDir; ".cargo/bin"] in
  PATH.

(** [getShellEnv]: [process_env] is [process.env]. *)
Definition getShellEnv (process_env : Env) (homeDir : string) : Env :=
  let env := process_env in
  if not_set (env !! "PATH") then <["PATH" := default_PATH homeDir]> env
  else env.

(** The [get_env] tool, for a [name] that [Object.prototype] does not
    define. *)
Definition get_env (process_env : Env) (homeDir : string) (name : string)
    : string :=
  let env := getShellEnv process_env homeDir in
  match env !! name with
  | None => "Environment variable '" +:+ name +:+ "' is not set"
  | Some value => value
  end.

(** The property names every JavaScript object inherits from
    [Object.prototype]; a lookup of one of them in [env] does not give
    [undefined]. *)
Definition inherited_names : list string :=
  ["constructor"; "__defineGetter__"; "__defineSetter__"; "hasOwnProperty";
   "__lookupGetter__"; "__lookupSetter__"; "isPrototypeOf";
   "propertyIsEnumerable"; "toString"; "valueOf"; "__proto__";
   "toLocaleString"].

(** *** Before the spawn *)

(** What [run_command] does once its checks are over: it has returned a
    message, or it calls [spawn(command, [], { cwd, env, shell: true })]
    and arms the timer for [timeout]. *)
Inductive launch : Type :=
  | Returned (message : string)
  | Spawned (command : string) (cwd : string) (env : Env) (timeout : Z).

Definition is_spawned (l : launch) : bool :=
  match l with Returned _ => false | Spawned _ _ _ _ => true end.

Section Server.

Variable process_cwd : string.
Variable baseDir : string.
Variable process_env : Env.
Variable homeDir : string.

(** The working directory of the command. *)
Definition working_directory (workingDir : string) : string :=
  if Str.truthy workingDir then Path.resolve process_cwd [baseDir; workingDir]
  else baseDir.

(** The handler of [run_command] up to the promise; the optional
    arguments take their defaults [''] and [30000]. *)
Definition run_command (fs : Fs.FS) (command : string)
    (workingDir_arg : option string) (timeout_arg : option Z) : launch :=
  let workingDir := default "" workingDir_arg in
  let timeout := default 30000%Z timeout_arg in
  let cwd := working_directory workingDir in
  if negb (Str.startsWith cwd baseDir) then
    Returned "Error: Working directory must be within the base directory"
  else if negb (Fs.exists_in fs cwd) then
    Returned ("Error: Working directory '" +:+ workingDir +:+ "' does not exist")
  else
    Spawned command cwd (getShellEnv process_env homeDir) timeout.

End Server.

(** *** The promise around the child process *)

(** What the runtime delivers to the callbacks registered by the promise
    executor. *)
Inductive event : Type :=
  | StdoutData (data : string)
  | StderrData (data : string)
  | Close (code : option Z)
  | Error (message : string)
  | TimerFires.

(** The variables of the executor's closure, the pending timer, the
    signal sent to the child and the promise.  [timeoutId] holds the
    delay of the timer made by [setTimeout], [None] for [null];
    [resolved] lists the values [resolve] was called with, the oldest
    first; [settled] is what the awaiting caller receives. *)
Record proc : Type := mkProc {
  stdout : string;
  stderr : string;
  timeoutId : option Z;
  timer_pending : bool;
  killed : bool;
  resolved : list string;
  settled : option string;
}.

(** [resolve(value)]: only the first call settles the promise. *)
Definition resolve (value : string) (st : proc) : proc :=
  {| stdout := stdout st; stderr := stderr st;
     timeoutId := timeoutId st; timer_pending := timer_pending st;
     killed := killed st;
     resolved := resolved st ++ [value];
     settled := match settled st with
                | Some first => Some first
                | None => Some value
                end |}.

(** [if (timeoutId) clearTimeout(timeoutId)] *)
Definition clear_timer (st : proc) : proc :=
  match timeoutId st with
  | Some _ =>
      {| stdout := stdout st; stderr := stderr st;
         timeoutId := timeoutId st; timer_pending := false;
         killed := killed st; resolved := resolved st;
         settled := settled st |}
  | None => st
  end.

(** [process.kill()] *)
Definition kill (st : proc) : proc :=
  {| stdout := stdout st; stderr := stderr st;
     timeoutId := timeoutId st; timer_pending := timer_pending st;
     killed := true; resolved := resolved st;
     settled := settled st |}.

(** [`${code}`] for the argument of the close listener: a number, or
    [null] when a signal ended the child. *)
Definition show_code (code : option Z) : string :=
  match code with
  | Some n => pretty n
  | None => "null"
  end.

Definition timeout_message (timeout : Z) : string :=
  "Command timed out after " +:+ pretty timeout +:+ "ms".

Definition success_message (out : string) : string :=
  Str.or_else out "Command executed successfully (no output)".

Definition failure_message (code : option Z) (out err : string) : string :=
  let errorOutput := Str.or_else err (Str.or_else out "No error output") in
  "Command failed with exit code " +:+ show_code code +:+ ":" +:+ Str.nl
    +:+ errorOutput.

Definition spawn_error_message (message : string) : string :=
  "Failed to execute command: " +:+ message.

(** The state the executor leaves when it returns, [spawn] having
    returned the child: empty buffers, and a timer armed when
    [timeout > 0]. *)
Definition executor (timeout : Z) : proc :=
  let armed := (0 <? timeout)%Z in
  {| stdout := ""; stderr := "";
     timeoutId := if armed then Some timeout else None;
     timer_pending := armed;
     killed := false; resolved := []; settled := None |}.

(** The callback given to [setTimeout]. *)
Definition on_timeout (timeout : Z) (st : proc) : proc :=
  resolve (timeout_message timeout) (kill st).

Definition on_stdout_data (data : string) (st : proc) : proc :=
  {| stdout := stdout st +:+ data; stderr := stderr st;
     timeoutId := timeoutId st; timer_pending := timer_pending st;
     killed := killed st; resolved := resolved st;
     settled := settled st |}.

Definition on_stderr_data (data : string) (st : proc) : proc :=
  {| stdout := stdout st; stderr := stderr st +:+ data;
     timeoutId := timeoutId st; timer_pending := timer_pending st;
     killed := killed st; resolved := resolved st;
     settled := settled st |}.

(** The ['close'] listener. *)
Definition on_close (code : option Z) (st : proc) : proc :=
  let st := clear_timer st in
  match code with
  | Some 0%Z => resolve (success_message (stdout st)) st
  | _ => resolve (failure_message code (stdout st) (stderr st)) st
  end.

(** The ['error'] listener. *)
Definition on_error (message : string) (st : proc) : proc :=
  let st := clear_timer st in
  resolve (spawn_error_message message) st.

(** The timer runs its callback once, and only while it is pending. *)
Definition fire_timer (timeout : Z) (st : proc) : proc :=
  if timer_pending st then
    on_timeout timeout
      {| stdout := stdout st; stderr := stderr st;
         timeoutId := timeoutId st; timer_pending := false;
         killed := killed st; resolved := resolved st;
         settled := settled st |}
  else st.

Definition deliver (timeout : Z) (st : proc) (ev : event) : proc :=
  match ev with
  | StdoutData data => on_stdout_data data st
  | StderrData data => on_stderr_data data st
  | Close code => on_close code st
  | Error message => on_error message st
  | TimerFires => fire_timer timeout st
  end.

(** The promise after the runtime has delivered [evs] in this order. *)
Definition run (timeout : Z) (evs : list event) : proc :=
  fold_left (deliver timeout) evs (executor timeout).

(** An event by which the child itself ends the call. *)
Definition child_ends (ev : event) : bool :=
  match ev with
  | Close _ | Error _ => true
  | StdoutData _ | StderrData _ | TimerFires => false
  end.

(** The promise executor [(resolve) => { ... }].  Its first call is
    [spawn(command, [], options)], whose outcome is [spawned]: the child,
    or an exception thrown by [spawn] itself (a working directory that is
    not a directory, an empty command).  An exception leaves the executor
    at once: no timer is armed, no listener is registered, and the
    promise is rejected with it. *)
Definition promise_executor (spawned : result unit) (timeout : Z)
    : result proc :=
  match spawned with
  | Throw message => Throw message
  | Ok _ => Ok (executor timeout)
  end.

(** Whether [setTimeout] has been called when the executor is over. *)
Definition timer_armed (started : result proc) : bool :=
  match started with
  | Ok st => timer_pending st
  | Throw _ => false
  end.

(** What the caller that awaits the promise gets. *)
Inductive outcome : Type :=
  | Fulfilled (text : string)
  | Rejected (message : string)
  | Pending.

(** One invocation seen from the caller.  When [spawn] has returned, the
    child delivers [before] until the delay has elapsed and [after] from
    then on; a timer that is still pending fires in between.  A child
    that never closes delivers no [Close].  The caller receives the value
    the promise settles with, if it settles. *)
Definition execute (spawned : result unit) (timeout : Z)
    (before after : list event) : outcome :=
  match promise_executor spawned timeout with
  | Throw message => Rejected message
  | Ok st =>
      match settled (fold_left (deliver timeout)
                       (before ++ TimerFires :: after) st) with
      | Some text => Fulfilled text
      | None => Pending
      end
  end.

(** *** The whole call *)

(** Where a call of [run_command] stands: it has returned the message of
    a failed check, [spawn] has thrown, or the promise is under way. *)
Inductive call_state : Type :=
  | Returned_early (message : string)
  | Spawn_threw (message : string)
  | In_promise (st : proc).

Definition call_timer_armed (c : call_state) : bool :=
  match c with
  | In_promise st => timer_pending st
  | Returned_early _ | Spawn_threw _ => false
  end.

Section Call.

(** What [child_process.spawn] does on the host with a command, a working
    directory and an environment: it returns the child or throws. *)
Variable spawn : string -> string -> Env -> result unit.

Variable process_cwd : string.
Variable baseDir : string.
Variable process_env : Env.
Variable homeDir : string.

(** The handler of [run_command] from its arguments to the state of the
    promise after the runtime has delivered [evs]. *)
Definition run_command_call (fs : Fs.FS) (command : string)
    (workingDir_arg : option string) (timeout_arg : option Z)
    (evs : list event) : call_state :=
  match run_command process_cwd baseDir process_env homeDir
          fs command workingDir_arg timeout_arg with
  | Returned message => Returned_early message
  | Spawned command cwd env timeout =>
      match promise_executor (spawn command cwd env) timeout with
      | Throw message => Spawn_threw message
      | Ok st => In_promise (fold_left (deliver timeout) evs st)
      end
  end.

End Call.

(** The text gathered from the data events of one stream. *)
Definition stdout_chunk (ev : event) : string :=
  match ev with StdoutData data => data | _ => "" end.

Definition stderr_chunk (ev : event) : string :=
  match ev with StderrData data => data | _ => "" end.

Definition collected (chunk : event -> string) (evs : list event) : string :=
  fold_left (fun acc ev => acc +:+ chunk ev) evs "".

(** What holds of the promise at every moment of a call with delay [t]:
    a pending timer was armed with [t > 0] and nothing has resolved yet;
    with [t > 0] the call is pending on its timer or settled; the caller
    sees the first value [resolve] was given. *)
Record promise_inv (t : Z) (st : proc) : Prop := {
  inv_pending : timer_pending st = true ->
                settled st = None /\ timeoutId st = Some t /\ (0 < t)%Z;
  inv_live : (0 < t)%Z -> timer_pending st = true \/ is_Some (settled st);
  inv_first : settled st = head (resolved st);
  inv_unarmed : (t <= 0)%Z -> timeoutId st = None;
}.

(** The four texts a call can end with. *)
Definition outcome_text (timeout : Z) (s : string) : Prop :=
  s = timeout_message timeout \/
  (exists out, s = success_message out) \/
  (exists code out err, code <> Some 0%Z /\ s = failure_message code out err) \/
  (exists message, s = spawn_error_message message).

End ShellServer.

(** ** The paper server: the request sent to the Arxiv API *)

Module Arxiv.

(** The numbers of a request: integers in the safe range of JavaScript
    ([Number.MAX_SAFE_INTEGER] in magnitude at most), which a template
    literal prints by their decimal digits. *)
Record safe_integer : Type := mkSafeInteger {
  integer_value : Z;
  integer_safe : (Z.abs integer_value <=? 9007199254740991)%Z = true;
}.

(** [FetchConfig]: every field is optional. *)
Record FetchConfig : Type := mkFetchConfig {
  searchQuery : option string;
  maxResults : option safe_integer;
  sortBy : option string;
  sortOrder : option string;
  outputFile : option string;
}.

(** The fields of [DEFAULT_CONFIG] that the request uses. *)
Definition default_searchQuery : string :=
  "cat:cs.AI+OR+cat:cs.CL+OR+cat:cs.LG+OR+cat:cs.NE".
Definition default_maxResults : safe_integer := mkSafeInteger 100 eq_refl.
Definition default_sortBy : string := "submittedDate".
Definition default_sortOrder : string := "descending".

(** [option || fallback] for a string: a missing and an empty string
    are both falsy. *)
Definition string_or (option_value : option string) (fallback : string)
    : string :=
  match option_value with
  | Some s => Str.or_else s fallback
  | None => fallback
  end.

(** [option || fallback] for a number: a missing one and 0 are both
    falsy. *)
Definition number_or (option_value : option safe_integer)
    (fallback : safe_integer) : safe_integer :=
  match option_value with
  | Some n => if (integer_value n =? 0)%Z then fallback else n
  | None => fallback
  end.

(** The [url] that [fetchArxivPapers] builds and fetches. *)
Definition request_url (options : FetchConfig) : string :=
  let searchQuery := string_or (searchQuery options) default_searchQuery in
  let maxResults := number_or (maxResults options) default_maxResults in
  let sortBy := string_or (sortBy options) default_sortBy in
  let sortOrder := string_or (sortOrder options) default_sortOrder in
  "http://export.arxiv.org/api/query?search_query=" +:+ searchQuery
  +:+ "&max_results=" +:+ pretty (integer_value maxResults)
  +:+ "&sortBy=" +:+ sortBy
  +:+ "&sortOrder=" +:+ sortOrder.

End Arxiv.

(** ** The words of the specification *)

Module Spec.

(** "Accept iff the normalized result is textually equal to [root] or has
    [root] followed by the path separator as a prefix." *)
Definition confined (root p : string) : bool :=
  String.eqb p root || Str.startsWith p (root +:+ "/").

(** "must exist as a directory" *)
Definition exists_as_directory (fs : Fs.FS) (p : string) : bool :=
  match fs !! p with
  | Some n => Fs.isDirectory n
  | None => false
  end.

End Spec.

(** ** Sample data *)

Module Sample.

(** A host with the base directory [/srv/app], a file in it and a
    sibling directory whose name extends the base directory's. *)
Definition fs : Fs.FS :=
  <["/srv/app-secrets/key" := Fs.File "hunter2"]>
  (<["/srv/app-secrets" := Fs.Dir]>
  (<["/srv/app/notes.txt" := Fs.File "first line"]>
  (<["/srv/app" := Fs.Dir]>
  (<["/srv" := Fs.Dir]>
  (<["/" := Fs.Dir]> ∅))))).

Definition baseDir : string := "/srv/app".

Definition homeDir : string := "/home/dev".

(** [child_process.spawn] on the sample host, as far as the examples
    go: it throws for an empty command and for a working directory that
    is a regular file, and returns the child otherwise. *)
Definition spawn (command cwd : string) (env : ShellServer.Env)
    : result unit :=
  if String.eqb command "" then
    Throw "The argument 'file' cannot be empty. Received ''"
  else
    match fs !! cwd with
    | Some (Fs.File _) => Throw "spawn ENOTDIR"
    | _ => Ok tt
    end.

(** A stand-in for the [diff] package in examples. *)
Definition createPatch (fileName oldStr newStr oldHeader newHeader : string)
    : string :=
  "--- " +:+ fileName +:+ " " +:+ oldHeader +:+ Str.nl +:+
  "+++ " +:+ fileName +:+ " " +:+ newHeader +:+ Str.nl +:+
  "-" +:+ oldStr +:+ Str.nl +:+ "+" +:+ newStr +:+ Str.nl.

End Sample.

(** * Properties *)

Example resolve_rel : Path.resolve "/w" ["/srv/app"; "a/../b/./c"] = "/srv/app/b/c".
Proof. reflexivity. Qed.
Example resolve_abs : Path.resolve "/w" ["/srv/app"; "/etc/passwd"] = "/etc/passwd".
Proof. reflexivity. Qed.
Example resolve_up : Path.resolve "/w" ["/srv/app"; "../../../.."] = "/".
Proof. reflexivity. Qed.
Example resolve_empty : Path.resolve "/w" ["/srv/app"; ""] = "/srv/app".
Proof. reflexivity. Qed.
Example resolve_cwd : Path.resolve "/w" ["data"; "x"] = "/w/data/x".
Proof. reflexivity. Qed.
Example join_home : Path.join ["/home/u"; ".local/bin"] = "/home/u/.local/bin".
Proof. reflexivity. Qed.
Example dirname_ex : Path.dirname "/srv/app/a.txt" = "/srv/app".
Proof. reflexivity. Qed.
Example dirname_root : Path.dirname "/srv" = "/".
Proof. reflexivity. Qed.

(** ** The promise of [run_command] *)

Import ShellServer.

Lemma run_app (t : Z) (evs more : list event) :
  run t (evs ++ more) = fold_left (deliver t) more (run t evs).
Proof. unfold run. apply fold_left_app. Qed.

Lemma run_snoc (t : Z) (evs : list event) (ev : event) :
  run t (evs ++ [ev]) = deliver t (run t evs) ev.
Proof. rewrite run_app. reflexivity. Qed.

Lemma settled_resolve (value : string) (st : proc) :
  settled (resolve value st) = Some (default value (settled st)).
Proof. unfold resolve; simpl. destruct (settled st); reflexivity. Qed.

Lemma settled_clear_timer (st : proc) : settled (clear_timer st) = settled st.
Proof. unfold clear_timer. destruct (timeoutId st); reflexivity. Qed.

Lemma stdout_clear_timer (st : proc) : stdout (clear_timer st) = stdout st.
Proof. unfold clear_timer. destruct (timeoutId st); reflexivity. Qed.

Lemma stderr_clear_timer (st : proc) : stderr (clear_timer st) = stderr st.
Proof. unfold clear_timer. destruct (timeoutId st); reflexivity. Qed.

Lemma resolved_clear_timer (st : proc) : resolved (clear_timer st) = resolved st.
Proof. unfold clear_timer. destruct (timeoutId st); reflexivity. Qed.

(** The two branches of the close listener. *)
Lemma on_close_zero (st : proc) :
  on_close (Some 0%Z) st =
  resolve (success_message (stdout (clear_timer st))) (clear_timer st).
Proof. reflexivity. Qed.

Lemma on_close_nonzero (code : option Z) (st : proc) :
  code <> Some 0%Z ->
  on_close code st =
  resolve (failure_message code (stdout (clear_timer st)) (stderr (clear_timer st)))
    (clear_timer st).
Proof. intros Hc. destruct code as [[| |]|]; congruence || reflexivity. Qed.

Lemma on_close_resolves (code : option Z) (st : proc) :
  exists value, on_close code st = resolve value (clear_timer st).
Proof.
  destruct (decide (code = Some 0%Z)) as [->|Hc].
  - eexists. apply on_close_zero.
  - eexists. apply on_close_nonzero. exact Hc.
Qed.

(** A settled promise keeps its value whatever is delivered next. *)
Lemma settled_deliver (t : Z) (st : proc) (ev : event) (s : string) :
  settled st = Some s -> settled (deliver t st ev) = Some s.
Proof.
  intros Hs. destruct ev as [d|d|code|m|]; cbn [deliver].
  - exact Hs.
  - exact Hs.
  - destruct (on_close_resolves code st) as [value ->].
    rewrite settled_resolve, settled_clear_timer, Hs. reflexivity.
  - unfold on_error. rewrite settled_resolve, settled_clear_timer, Hs. reflexivity.
  - unfold fire_timer. destruct (timer_pending st); [|exact Hs].
    unfold on_timeout. rewrite settled_resolve. simpl. rewrite Hs. reflexivity.
Qed.

Lemma settled_fold (t : Z) (more : list event) (st : proc) (s : string) :
  settled st = Some s -> settled (fold_left (deliver t) more st) = Some s.
Proof.
  revert st. induction more as [|ev more IH]; intros st Hs; simpl.
  - exact Hs.
  - apply IH. apply settled_deliver. exact Hs.
Qed.

Lemma promise_inv_executor (t : Z) : promise_inv t (executor t).
Proof.
  unfold executor. destruct (Z.ltb_spec 0 t) as [Hlt|Hge]; split; simpl;
    intros; first [discriminate | lia | tauto | reflexivity | auto].
Qed.

Lemma head_snoc {A} (l : list A) (x : A) :
  head (l ++ [x]) = Some (default x (head l)).
Proof. destruct l; reflexivity. Qed.

Lemma promise_inv_after_clear (t : Z) (value : string) (st : proc) :
  promise_inv t st -> promise_inv t (resolve value (clear_timer st)).
Proof.
  intros Hinv. destruct Hinv as [H1 H2 H3 H4]. split; simpl.
  - unfold clear_timer. destruct (timeoutId st) eqn:Hid; simpl; [discriminate|].
    intros Hp. destruct (H1 Hp) as (_ & Hid' & _). congruence.
  - intros _. right. rewrite settled_clear_timer. destruct (settled st); eauto.
  - rewrite settled_clear_timer, resolved_clear_timer, head_snoc, <- H3.
    destruct (settled st); reflexivity.
  - intros Hle. unfold clear_timer.
    destruct (timeoutId st) eqn:Hid; simpl; [|exact Hid].
    exact (H4 Hle).
Qed.

Lemma promise_inv_deliver (t : Z) (st : proc) (ev : event) :
  promise_inv t st -> promise_inv t (deliver t st ev).
Proof.
  intros Hinv. destruct ev as [d|d|code|m|]; cbn [deliver].
  - destruct Hinv as [H1 H2 H3 H4]. split; simpl; assumption.
  - destruct Hinv as [H1 H2 H3 H4]. split; simpl; assumption.
  - destruct (on_close_resolves code st) as [value ->].
    apply promise_inv_after_clear. exact Hinv.
  - unfold on_error. apply promise_inv_after_clear. exact Hinv.
  - unfold fire_timer. destruct (timer_pending st) eqn:Hp; [|exact Hinv].
    destruct Hinv as [H1 H2 H3 H4]. destruct (H1 Hp) as (Hs & Hid & Hlt).
    unfold on_timeout, kill, resolve; simpl. split; simpl.
    + discriminate.
    + intros _. right. rewrite Hs. eauto.
    + rewrite head_snoc, <- H3, Hs. reflexivity.
    + exact H4.
Qed.

Lemma promise_inv_fold (t : Z) (evs : list event) (st : proc) :
  promise_inv t st -> promise_inv t (fold_left (deliver t) evs st).
Proof.
  revert st. induction evs as [|ev evs IH]; intros st Hinv; simpl.
  - exact Hinv.
  - apply IH. apply promise_inv_deliver. exact Hinv.
Qed.

Lemma promise_inv_run (t : Z) (evs : list event) : promise_inv t (run t evs).
Proof. apply promise_inv_fold. apply promise_inv_executor. Qed.

Lemma append_empty_r (s : string) : s +:+ "" = s.
Proof.
  induction s as [|c s IH]; [reflexivity|].
  change (String c (s +:+ "") = String c s). f_equal. exact IH.
Qed.

Lemma append_assoc (a b c : string) : (a +:+ b) +:+ c = a +:+ (b +:+ c).
Proof.
  induction a as [|x a IH]; [reflexivity|].
  change (String x ((a +:+ b) +:+ c) = String x (a +:+ (b +:+ c))).
  f_equal. exact IH.
Qed.

Lemma stdout_deliver (t : Z) (st : proc) (ev : event) :
  stdout (deliver t st ev) = stdout st +:+ stdout_chunk ev.
Proof.
  destruct ev as [d|d|code|m|]; cbn [deliver stdout_chunk];
    rewrite ?append_empty_r; try reflexivity.
  - destruct (on_close_resolves code st) as [value ->]. simpl.
    apply stdout_clear_timer.
  - unfold on_error. simpl. apply stdout_clear_timer.
  - unfold fire_timer. destruct (timer_pending st); reflexivity.
Qed.

Lemma stderr_deliver (t : Z) (st : proc) (ev : event) :
  stderr (deliver t st ev) = stderr st +:+ stderr_chunk ev.
Proof.
  destruct ev as [d|d|code|m|]; cbn [deliver stderr_chunk];
    rewrite ?append_empty_r; try reflexivity.
  - destruct (on_close_resolves code st) as [value ->]. simpl.
    apply stderr_clear_timer.
  - unfold on_error. simpl. apply stderr_clear_timer.
  - unfold fire_timer. destruct (timer_pending st); reflexivity.
Qed.

(** The buffers hold exactly the data delivered so far, in order. *)
Lemma buffers_fold (t : Z) (evs : list event) (st : proc) :
  stdout (fold_left (deliver t) evs st)
    = fold_left (fun acc ev => acc +:+ stdout_chunk ev) evs (stdout st) /\
  stderr (fold_left (deliver t) evs st)
    = fold_left (fun acc ev => acc +:+ stderr_chunk ev) evs (stderr st).
Proof.
  revert st. induction evs as [|ev evs IH]; intros st; simpl.
  - split; reflexivity.
  - destruct (IH (deliver t st ev)) as [IH1 IH2].
    rewrite IH1, IH2, stdout_deliver, stderr_deliver. split; reflexivity.
Qed.

Lemma buffers_run (t : Z) (evs : list event) :
  stdout (run t evs) = collected stdout_chunk evs /\
  stderr (run t evs) = collected stderr_chunk evs.
Proof. apply (buffers_fold t evs (executor t)). Qed.

Lemma or_else_spec (a b : string) :
  Str.or_else a b = if String.eqb a "" then b else a.
Proof. destruct a; reflexivity. Qed.

(** A listener of the child's end always settles the promise. *)
Lemma child_ends_settles (t : Z) (st : proc) (ev : event) :
  child_ends ev = true -> is_Some (settled (deliver t st ev)).
Proof.
  destruct ev as [d|d|code|m|]; cbn [deliver child_ends]; try discriminate; intros _.
  - destruct (on_close_resolves code st) as [value ->].
    rewrite settled_resolve. eauto.
  - unfold on_error. rewrite settled_resolve. eauto.
Qed.

Lemma settled_fold_is_Some (t : Z) (evs : list event) (st : proc) :
  is_Some (settled st) -> is_Some (settled (fold_left (deliver t) evs st)).
Proof. intros [s Hs]. exists s. apply settled_fold. exact Hs. Qed.

Lemma exists_child_end_settles (t : Z) (evs : list event) (st : proc) :
  Exists (fun ev => child_ends ev = true) evs ->
  is_Some (settled (fold_left (deliver t) evs st)).
Proof.
  intros Hex. revert st. induction Hex as [ev evs Hev|ev evs _ IH]; intros st; simpl.
  - apply settled_fold_is_Some. apply child_ends_settles. exact Hev.
  - apply IH.
Qed.

(** Without a timer, data alone never settles the promise. *)
Lemma no_child_end_unsettled (t : Z) (evs : list event) (st : proc) :
  promise_inv t st -> (t <= 0)%Z -> settled st = None ->
  Forall (fun ev => child_ends ev = false) evs ->
  settled (fold_left (deliver t) evs st) = None.
Proof.
  intros Hinv Ht Hs Hall. revert st Hinv Hs.
  induction Hall as [|ev evs Hev _ IH]; intros st Hinv Hs; simpl; [exact Hs|].
  apply IH; [apply promise_inv_deliver; exact Hinv|].
  destruct ev as [d|d|code|m|]; cbn [deliver child_ends] in *; try discriminate;
    try exact Hs.
  unfold fire_timer. destruct (timer_pending st) eqn:Hp; [|exact Hs].
  destruct (inv_pending t st Hinv Hp) as (_ & _ & Hlt). lia.
Qed.

(** Whatever settles the promise is one of the four texts. *)
Lemma outcome_deliver (t : Z) (st : proc) (ev : event) (s : string) :
  settled st = None -> settled (deliver t st ev) = Some s -> outcome_text t s.
Proof.
  intros Hn. destruct ev as [d|d|code|m|]; cbn [deliver].
  - simpl. congruence.
  - simpl. congruence.
  - destruct (decide (code = Some 0%Z)) as [->|Hc].
    + rewrite on_close_zero, settled_resolve, settled_clear_timer, Hn. simpl.
      intros [= <-]. right; left. eauto.
    + rewrite (on_close_nonzero code st Hc), settled_resolve, settled_clear_timer, Hn.
      simpl. intros [= <-]. right; right; left. eauto 6.
  - unfold on_error. rewrite settled_resolve, settled_clear_timer, Hn. simpl.
    intros [= <-]. right; right; right. eauto.
  - unfold fire_timer. destruct (timer_pending st); [|congruence].
    unfold on_timeout. rewrite settled_resolve. simpl. rewrite Hn. simpl.
    intros [= <-]. left. reflexivity.
Qed.

Lemma outcome_fold (t : Z) (evs : list event) (st : proc) (s : string) :
  settled st = None -> settled (fold_left (deliver t) evs st) = Some s ->
  outcome_text t s.
Proof.
  revert st. induction evs as [|ev evs IH]; intros st Hn; simpl; [congruence|].
  destruct (settled (deliver t st ev)) as [s'|] eqn:Hs'.
  - rewrite (settled_fold t evs _ s' Hs'). intros [= <-].
    eapply outcome_deliver; eassumption.
  - apply IH. exact Hs'.
Qed.

Lemma execute_spawned (t : Z) (before after : list event) :
  execute (Ok tt) t before after =
  match settled (run t (before ++ TimerFires :: after)) with
  | Some text => Fulfilled text
  | None => Pending
  end.
Proof. reflexivity. Qed.

(** With the child spawned, the promise settles exactly when the timeout
    is enabled or the child ends the call. *)
Lemma promise_settles_iff (t : Z) (before after : list event) :
  is_Some (settled (run t (before ++ TimerFires :: after))) <->
  (0 < t)%Z \/ Exists (fun ev => child_ends ev = true) (before ++ after).
Proof.
  split.
  - intros Hsome. destruct (Z.lt_ge_cases 0 t) as [Hlt|Hge]; [left; exact Hlt|].
    right.
    destruct (Forall_Exists_dec (fun ev => child_ends ev = false)
                (fun ev => child_ends ev = true)
                (fun ev => match child_ends ev as b
                             return {b = false} + {b = true} with
                           | true => right eq_refl
                           | false => left eq_refl
                           end) (before ++ after)) as [Hall|Hex]; [|exact Hex].
    exfalso. destruct Hsome as [s Hs].
    assert (Hnone : settled (run t (before ++ TimerFires :: after)) = None).
    { apply no_child_end_unsettled;
        [apply promise_inv_executor | exact Hge | reflexivity |].
      apply Forall_app in Hall as [Hb Ha].
      apply Forall_app. split; [exact Hb|].
      constructor; [reflexivity | exact Ha]. }
    congruence.
  - intros [Hlt|Hex].
    + rewrite run_app. cbn [fold_left]. apply settled_fold_is_Some.
      cbn [deliver]. unfold fire_timer.
      destruct (timer_pending (run t before)) eqn:Hp.
      * unfold on_timeout. rewrite settled_resolve. eauto.
      * destruct (inv_live t _ (promise_inv_run t before) Hlt) as [Hp'|Hs];
          [congruence | exact Hs].
    + apply exists_child_end_settles.
      apply Exists_app in Hex as [Hex|Hex]; apply Exists_app;
        [left; exact Hex | right; apply Exists_cons_tl; exact Hex].
Qed.

(** C2, as stated, fails: with the timeout disabled ([timeout = 0]) a
    child that writes and never closes leaves the promise pending, so the
    call produces no result string at all.  And when [spawn] itself
    throws, the promise is rejected: the caller gets an exception where
    the claim promises a result string. *)
Lemma run_command_may_never_resolve :
  execute (Ok tt) 0 [StdoutData "tick"; StdoutData "tock"] [] = Pending /\
  execute (Throw "spawn ENOTDIR") 30000 [] [] = Rejected "spawn ENOTDIR" /\
  ~ (forall (spawned : result unit) (t : Z) (before after : list event),
       exists s, execute spawned t before after = Fulfilled s).
Proof.
  split; [reflexivity|]. split; [reflexivity|].
  intros H.
  destruct (H (Ok tt) 0%Z [StdoutData "tick"; StdoutData "tock"] []) as [s Hs].
  discriminate Hs.
Qed.

(** C2 (amended): a call of the execution core in which [spawn] returns
    the child produces at most one result string, and nothing is raised
    to the caller.  A result is produced exactly when the timeout is
    enabled ([timeout > 0]) or the child delivers a close or an error
    event; it is then the value of the first call of [resolve], one of
    the four texts (success, failure, timeout notice, spawn error), and
    no later event changes it. *)
Theorem execute_resolves_once (t : Z) (before after : list event) :
  ((exists s, execute (Ok tt) t before after = Fulfilled s) <->
   (0 < t)%Z \/ Exists (fun ev => child_ends ev = true) (before ++ after)) /\
  (execute (Ok tt) t before after = Pending <->
   (t <= 0)%Z /\ Forall (fun ev => child_ends ev = false) (before ++ after)) /\
  (forall message, execute (Ok tt) t before after <> Rejected message) /\
  (forall s, execute (Ok tt) t before after = Fulfilled s ->
     head (resolved (run t (before ++ TimerFires :: after))) = Some s /\
     outcome_text t s /\
     forall more,
       execute (Ok tt) t before (after ++ more) = Fulfilled s /\
       settled (run t ((before ++ TimerFires :: after) ++ more)) = Some s).
Proof.
  pose proof (promise_settles_iff t before after) as Hiff.
  rewrite execute_spawned.
  assert (Hfull : (exists s,
             match settled (run t (before ++ TimerFires :: after)) with
             | Some text => Fulfilled text
             | None => Pending
             end = Fulfilled s) <->
          (0 < t)%Z \/ Exists (fun ev => child_ends ev = true) (before ++ after)).
  { rewrite <- Hiff. unfold is_Some.
    destruct (settled (run t (before ++ TimerFires :: after))) as [s0|].
    - split; intros _; eauto.
    - split; intros [s Hs]; discriminate Hs. }
  split; [exact Hfull|]. split; [|split].
  - split.
    + intros Hp.
      assert (Hno : ~ ((0 < t)%Z \/
                Exists (fun ev => child_ends ev = true) (before ++ after))).
      { intros Hor. apply Hfull in Hor as [s Hs]. congruence. }
      split; [lia|].
      apply Forall_forall. intros ev Hin.
      destruct (child_ends ev) eqn:Hev; [|reflexivity].
      exfalso. apply Hno. right. apply Exists_exists. eauto.
    + intros [Hle Hall].
      destruct (settled (run t (before ++ TimerFires :: after))) as [s0|] eqn:Hs;
        [|reflexivity].
      exfalso.
      destruct (proj1 Hiff (ex_intro _ s0 eq_refl)) as [Hlt|Hex]; [lia|].
      apply Exists_exists in Hex as (ev & Hin & Hev).
      rewrite Forall_forall in Hall. specialize (Hall ev Hin). congruence.
  - intros message.
    destruct (settled (run t (before ++ TimerFires :: after))); discriminate.
  - intros s Hs.
    assert (Hs' : settled (run t (before ++ TimerFires :: after)) = Some s).
    { destruct (settled (run t (before ++ TimerFires :: after)));
        [injection Hs as ->; reflexivity | discriminate Hs]. }
    split; [|split].
    + rewrite <- (inv_first t _ (promise_inv_run t _)). exact Hs'.
    + eapply outcome_fold; [|exact Hs']. reflexivity.
    + intros more.
      assert (Hmore : settled (run t ((before ++ TimerFires :: after) ++ more))
                      = Some s).
      { rewrite run_app. apply settled_fold. exact Hs'. }
      split; [|exact Hmore].
      rewrite execute_spawned.
      replace (before ++ TimerFires :: after ++ more)%list
        with ((before ++ TimerFires :: after) ++ more)%list
        by (rewrite <- app_assoc; reflexivity).
      rewrite Hmore. reflexivity.
Qed.

Lemma execute_resolves_once_witness :
  execute (Ok tt) 100 [StdoutData "partial"] [Close None]
  = Fulfilled "Command timed out after 100ms" /\
  outcome_text 100 "Command timed out after 100ms".
Proof.
  assert (H : execute (Ok tt) 100 [StdoutData "partial"] [Close None]
              = Fulfilled "Command timed out after 100ms") by reflexivity.
  split; [exact H|].
  exact (proj1 (proj2 (proj2 (proj2 (proj2
    (execute_resolves_once 100 [StdoutData "partial"] [Close None]))) _ H))).
Defined.

(** C3, as stated, fails: when the timer has fired before the child
    closes, the call has its result already, the timeout notice; the
    text of the close listener comes second and is dropped, also for the
    exit code 0. *)
Lemma close_after_timeout_is_dropped :
  settled (run 100 ([StdoutData "out"; TimerFires] ++ [Close (Some 0%Z)]))
  = Some "Command timed out after 100ms" /\
  settled (run 100 ([StdoutData "out"; TimerFires] ++ [Close (Some 0%Z)]))
  <> Some "out" /\
  run_command_call Sample.spawn "/" Sample.baseDir ∅ Sample.homeDir Sample.fs
    "echo out; trap 'exit 0' TERM; sleep 5 & wait" None (Some 100%Z)
    [StdoutData "out"; TimerFires; Close (Some 0%Z)]
  = In_promise (run 100 [StdoutData "out"; TimerFires; Close (Some 0%Z)]) /\
  ~ (forall (t : Z) (evs : list event),
       settled (run t (evs ++ [Close (Some 0%Z)]))
       = Some (success_message (collected stdout_chunk evs))).
Proof.
  split; [reflexivity|]. split; [discriminate|]. split; [vm_compute; reflexivity|].
  intros H. specialize (H 100%Z [StdoutData "out"; TimerFires]).
  discriminate H.
Qed.

(** C3 (amended): when a spawned child closes with exit code [n], the
    close listener resolves with the accumulated standard output, or the
    fixed "no output" text when it is empty, if [n = 0]; otherwise with
    the exit code followed by the accumulated standard error if
    non-empty, else the standard output, else a fixed placeholder.  That
    text is the result of the call when nothing resolved it before: the
    timer has not fired and no error event came first. *)
Theorem close_with_exit_code (t : Z) (evs : list event) (n : Z) :
  let out := collected stdout_chunk evs in
  let err := collected stderr_chunk evs in
  let text :=
    if (n =? 0)%Z then
      (if String.eqb out "" then "Command executed successfully (no output)"
       else out)
    else
      "Command failed with exit code " +:+ pretty n +:+ ":" +:+ Str.nl +:+
      (if negb (String.eqb err "") then err
       else if negb (String.eqb out "") then out
       else "No error output") in
  resolved (run t (evs ++ [Close (Some n)]))
    = (resolved (run t evs) ++ [text])%list /\
  (settled (run t evs) = None ->
   settled (run t (evs ++ [Close (Some n)])) = Some text).
Proof.
  intros out err text.
  destruct (buffers_run t evs) as [Hout Herr]. fold out in Hout. fold err in Herr.
  assert (Hclose : on_close (Some n) (run t evs) =
                   resolve text (clear_timer (run t evs))).
  { unfold text. destruct (Z.eqb_spec n 0) as [->|Hn].
    - rewrite on_close_zero, stdout_clear_timer, Hout.
      unfold success_message. rewrite or_else_spec. reflexivity.
    - rewrite on_close_nonzero by congruence.
      rewrite stdout_clear_timer, stderr_clear_timer, Hout, Herr.
      unfold failure_message. rewrite !or_else_spec. cbn [show_code].
      destruct (String.eqb err ""), (String.eqb out ""); reflexivity. }
  rewrite run_snoc. cbn [deliver]. rewrite Hclose. split.
  - simpl. rewrite resolved_clear_timer. reflexivity.
  - intros Hs. rewrite settled_resolve, settled_clear_timer, Hs. reflexivity.
Qed.

Lemma close_with_exit_code_witness :
  settled (run 30000 [StderrData "warn"; StdoutData "a"; StdoutData "b"]) = None /\
  settled (run 30000 ([StderrData "warn"; StdoutData "a"; StdoutData "b"]
                        ++ [Close (Some 0%Z)])) = Some "ab" /\
  settled (run 30000 ([StderrData "warn"; StdoutData "a"; StdoutData "b"]
                        ++ [Close (Some 7%Z)]))
    = Some ("Command failed with exit code 7:" +:+ Str.nl +:+ "warn").
Proof.
  split; [reflexivity|]. split.
  - apply (proj2 (close_with_exit_code 30000
             [StderrData "warn"; StdoutData "a"; StdoutData "b"] 0)).
    reflexivity.
  - apply (proj2 (close_with_exit_code 30000
             [StderrData "warn"; StdoutData "a"; StdoutData "b"] 7)).
    reflexivity.
Defined.

(** A call that reaches the promise runs it with the timeout it was
    given, 30000 when the argument is omitted. *)
Lemma run_command_call_spawned
    (spawn : string -> string -> Env -> result unit)
    (process_cwd baseDir : string) (process_env : Env) (homeDir : string)
    (fs : Fs.FS) (command : string) (workingDir : option string)
    (timeout : option Z) (evs0 : list event) (st0 : proc) :
  run_command_call spawn process_cwd baseDir process_env homeDir
    fs command workingDir timeout evs0 = In_promise st0 ->
  forall evs,
    run_command_call spawn process_cwd baseDir process_env homeDir
      fs command workingDir timeout evs
    = In_promise (run (default 30000%Z timeout) evs).
Proof.
  unfold run_command_call, run_command. intros H evs.
  destruct (negb (Str.startsWith _ baseDir)); [discriminate H|].
  destruct (negb (Fs.exists_in fs _)); [discriminate H|].
  destruct (spawn _ _ _) as [u|message]; [|discriminate H].
  reflexivity.
Qed.

(** C4, as stated, fails: when [spawn] throws, a working directory that
    is a regular file or an empty command being enough, the executor is
    left before [setTimeout] is reached, and no timer is armed although
    the effective timeout is greater than 0. *)
Lemma timer_not_armed_when_spawn_throws :
  (0 < default 30000 (Some 5000))%Z /\
  run_command_call Sample.spawn "/" Sample.baseDir ∅ Sample.homeDir Sample.fs
    "ls" (Some "notes.txt") (Some 5000%Z) []
  = Spawn_threw "spawn ENOTDIR" /\
  call_timer_armed
    (run_command_call Sample.spawn "/" Sample.baseDir ∅ Sample.homeDir
       Sample.fs "ls" (Some "notes.txt") (Some 5000%Z) []) = false /\
  (0 < default 30000 None)%Z /\
  call_timer_armed
    (run_command_call Sample.spawn "/" Sample.baseDir ∅ Sample.homeDir
       Sample.fs "" None None []) = false /\
  timer_armed (promise_executor (Throw "spawn ENOTDIR") 5000) = false.
Proof.
  split; [reflexivity|]. split; [vm_compute; reflexivity|].
  split; [vm_compute; reflexivity|]. split; [reflexivity|].
  split; [vm_compute; reflexivity | reflexivity].
Qed.

(** C4 (amended): in a call of [run_command] in which [spawn] has
    returned the child, the timer is armed exactly when the effective
    timeout, the [timeout] argument or 30000 when it is omitted, is
    greater than 0; when it fires while still pending (the child has not
    closed), the child is killed and the call resolves with the fixed
    notice naming that timeout, whatever the buffers hold; a timeout of
    0 or less never fires. *)
Theorem timeout_armed_and_fires
    (spawn : string -> string -> Env -> result unit)
    (process_cwd baseDir : string) (process_env : Env) (homeDir : string)
    (fs : Fs.FS) (command : string) (workingDir : option string)
    (timeout : option Z) (st0 : proc) :
  run_command_call spawn process_cwd baseDir process_env homeDir
    fs command workingDir timeout [] = In_promise st0 ->
  let t := default 30000%Z timeout in
  let call := run_command_call spawn process_cwd baseDir process_env homeDir
                fs command workingDir timeout in
  (timer_pending st0 = true <-> (0 < t)%Z) /\
  (timeoutId st0 = None <-> (t <= 0)%Z) /\
  (timeoutId st0 = Some t <-> (0 < t)%Z) /\
  forall evs, exists st,
    call evs = In_promise st /\
    (timer_pending st = true ->
     exists st',
       call (evs ++ [TimerFires])%list = In_promise st' /\
       killed st' = true /\
       settled st' = Some ("Command timed out after " +:+ pretty t +:+ "ms") /\
       resolved st' = ["Command timed out after " +:+ pretty t +:+ "ms"]) /\
    ((t <= 0)%Z -> call (evs ++ [TimerFires])%list = In_promise st).
Proof.
  intros H0 t call.
  pose proof (run_command_call_spawned _ _ _ _ _ _ _ _ _ _ _ H0) as Hcall.
  fold t in Hcall. fold call in Hcall.
  assert (Hst0 : st0 = executor t).
  { pose proof (Hcall []) as H. unfold call in H. rewrite H0 in H.
    injection H as ->. reflexivity. }
  subst st0.
  split; [|split; [|split]].
  - unfold executor; simpl. destruct (Z.ltb_spec 0 t); split; intros; lia || congruence.
  - unfold executor; simpl. destruct (Z.ltb_spec 0 t); split; intros; lia || congruence.
  - unfold executor; simpl. destruct (Z.ltb_spec 0 t); split; intros; lia || congruence.
  - intros evs. exists (run t evs). split; [apply Hcall|]. split.
    + intros Hp. exists (run t (evs ++ [TimerFires])). split; [apply Hcall|].
      rewrite run_snoc. cbn [deliver]. unfold fire_timer. rewrite Hp.
      pose proof (promise_inv_run t evs) as Hinv.
      destruct (inv_pending t _ Hinv Hp) as (Hs & _ & _).
      pose proof (inv_first t _ Hinv) as Hfirst. rewrite Hs in Hfirst.
      unfold on_timeout, kill, resolve; simpl. rewrite Hs.
      destruct (resolved (run t evs)); [|discriminate]. repeat split.
    + intros Hle. rewrite Hcall. f_equal.
      rewrite run_snoc. cbn [deliver]. unfold fire_timer.
      destruct (timer_pending (run t evs)) eqn:Hp; [|reflexivity].
      destruct (inv_pending t _ (promise_inv_run t evs) Hp) as (_ & _ & Hlt). lia.
Qed.

Lemma timeout_armed_and_fires_witness :
  run_command_call Sample.spawn "/" Sample.baseDir ∅ Sample.homeDir Sample.fs
    "sleep 5" None (Some 100%Z) []
  = In_promise (executor 100) /\
  exists st',
    run_command_call Sample.spawn "/" Sample.baseDir ∅ Sample.homeDir Sample.fs
      "sleep 5" None (Some 100%Z)
      ([StdoutData "partial "; StderrData "output"] ++ [TimerFires])%list
    = In_promise st' /\
    killed st' = true /\
    settled st' = Some "Command timed out after 100ms".
Proof.
  assert (H0 : run_command_call Sample.spawn "/" Sample.baseDir ∅ Sample.homeDir
                 Sample.fs "sleep 5" None (Some 100%Z) []
               = In_promise (executor 100)) by (vm_compute; reflexivity).
  split; [exact H0|].
  destruct (timeout_armed_and_fires _ _ _ _ _ _ _ _ _ _ H0)
    as (_ & _ & _ & Hfire).
  destruct (Hfire [StdoutData "partial "; StderrData "output"])
    as (st & Hst & Hp & _).
  assert (Hpending : timer_pending st = true).
  { assert (Hrun : run_command_call Sample.spawn "/" Sample.baseDir ∅
                     Sample.homeDir Sample.fs "sleep 5" None (Some 100%Z)
                     [StdoutData "partial "; StderrData "output"]
                   = In_promise (run 100 [StdoutData "partial "; StderrData "output"]))
      by (vm_compute; reflexivity).
    rewrite Hrun in Hst. injection Hst as <-. reflexivity. }
  destruct (Hp Hpending) as (st' & Hst' & Hk & Hs & _).
  exists st'. split; [exact Hst'|]. split; [exact Hk | exact Hs].
Defined.



(** ** The confinement check *)

(** What the check of both servers does establish: an accepted path has
    the base directory as a textual prefix. *)
Lemma normalizePath_prefix (cwd baseDir filePath p : string) :
  FsServer.normalizePath cwd baseDir filePath = Ok p ->
  Str.startsWith p baseDir = true.
Proof.
  unfold FsServer.normalizePath.
  destruct (Str.startsWith _ baseDir) eqn:Hpre; simpl; [|discriminate].
  intros [= <-]. exact Hpre.
Qed.

(** [run_command] spawns exactly when the prefix test passes and the
    working directory names something that exists. *)
Lemma run_command_spawns_iff (process_cwd baseDir : string) (process_env : Env)
    (homeDir : string) (fs : Fs.FS) (command : string)
    (workingDir : option string) (timeout : option Z) :
  let cwd := working_directory process_cwd baseDir (default "" workingDir) in
  is_spawned (run_command process_cwd baseDir process_env homeDir fs command
                workingDir timeout) = true <->
  Str.startsWith cwd baseDir = true /\ Fs.exists_in fs cwd = true.
Proof.
  unfold run_command. cbv zeta.
  destruct (Str.startsWith _ baseDir); simpl; [|split; [discriminate|intros [? _]; discriminate]].
  destruct (Fs.exists_in fs _); simpl; split; auto; try discriminate.
  intros [_ ?]; discriminate.
Qed.

(** C1: the claim is violated by the code.  With the base directory
    [/srv/app], the candidate [../app-secrets/key] resolves to
    [/srv/app-secrets/key], which is neither the base directory nor below
    it, and [normalizePath] returns it; [run_command] likewise accepts the
    working directory [../app-secrets] and spawns there. *)
Theorem confinement_accepts_sibling :
  FsServer.normalizePath "/" Sample.baseDir "../app-secrets/key"
    = Ok "/srv/app-secrets/key" /\
  Spec.confined Sample.baseDir "/srv/app-secrets/key" = false /\
  run_command "/" Sample.baseDir ∅ Sample.homeDir Sample.fs "cat key"
    (Some "../app-secrets") None
    = Spawned "cat key" "/srv/app-secrets" (getShellEnv ∅ Sample.homeDir) 30000 /\
  Spec.confined Sample.baseDir "/srv/app-secrets" = false.
Proof. repeat split; vm_compute; reflexivity. Qed.

(** Candidates that leave the base directory through a different name
    are rejected, and the empty candidate is the base directory. *)
Example confinement_rejects_parent :
  FsServer.normalizePath "/" Sample.baseDir "../../etc/passwd"
    = Throw "Access denied: ../../etc/passwd is outside the base directory" /\
  FsServer.normalizePath "/" Sample.baseDir "" = Ok "/srv/app".
Proof. split; reflexivity. Qed.

(** C5: the claim is violated by the code.  [notes.txt] is a regular
    file of the base directory, so the working directory does not exist
    as a directory, yet [run_command] goes on to spawn the command there:
    only [fs.existsSync] is consulted. *)
Theorem run_command_spawns_in_regular_file :
  Sample.fs !! "/srv/app/notes.txt" = Some (Fs.File "first line") /\
  Spec.exists_as_directory Sample.fs "/srv/app/notes.txt" = false /\
  run_command "/" Sample.baseDir ∅ Sample.homeDir Sample.fs "ls"
    (Some "notes.txt") None
    = Spawned "ls" "/srv/app/notes.txt" (getShellEnv ∅ Sample.homeDir) 30000.
Proof. repeat split; vm_compute; reflexivity. Qed.

(** ** The environment *)

Lemma default_PATH_not_empty (homeDir : string) : default_PATH homeDir <> "".
Proof.
  assert (H : exists rest, default_PATH homeDir = String "/" rest)
    by (eexists; reflexivity).
  destruct H as [rest ->]. discriminate.
Qed.

Lemma not_set_spec (value : option string) :
  not_set value = true <-> value = None \/ value = Some "".
Proof.
  destruct value as [[|c s]|]; simpl; split; intros H; auto; try discriminate.
  - destruct H as [H|H]; discriminate.
Qed.

(** C6, as stated, fails: a [PATH] that is present but empty is
    replaced by the synthesized one. *)
Lemma getShellEnv_replaces_empty_PATH :
  let env : Env := <["PATH" := ""]> (<["LANG" := "C"]> ∅) in
  env !! "PATH" = Some "" /\
  getShellEnv env Sample.homeDir !! "PATH" = Some (default_PATH Sample.homeDir) /\
  getShellEnv env Sample.homeDir !! "PATH" <> env !! "PATH".
Proof. cbv zeta. repeat split; vm_compute; [reflexivity..|discriminate]. Qed.

(** C6 (amended): [getShellEnv] returns the caller's environment with
    every variable other than [PATH] unchanged, none added and none
    removed; a [PATH] that is present and non-empty is unchanged; a
    [PATH] is synthesized from the fixed system directories and the
    home-relative tool directories if and only if [PATH] is absent or
    empty. *)
Theorem getShellEnv_spec (process_env : Env) (homeDir : string) :
  (forall name, name <> "PATH" ->
     getShellEnv process_env homeDir !! name = process_env !! name) /\
  (forall value, process_env !! "PATH" = Some value -> value <> "" ->
     getShellEnv process_env homeDir = process_env) /\
  (process_env !! "PATH" = None \/ process_env !! "PATH" = Some "" <->
   getShellEnv process_env homeDir
     = <["PATH" := default_PATH homeDir]> process_env /\
   getShellEnv process_env homeDir <> process_env) /\
  default_PATH homeDir
    = "/usr/local/bin:/usr/bin:/bin:/usr/sbin:/sbin"
      +:+ ":" +:+ Path.join [homeDir; ".local/bin"]
      +:+ ":" +:+ Path.join [homeDir; "bin"]
      +:+ ":" +:+ Path.join [homeDir; ".nvm/current/bin"]
      +:+ ":" +:+ Path.join [homeDir; ".bun/bin"]
      +:+ ":" +:+ Path.join [homeDir; ".deno/bin"]
      +:+ ":" +:+ Path.join [homeDir; ".cargo/bin"].
Proof.
  unfold getShellEnv; cbv zeta.
  split; [|split; [|split]].
  - intros name Hname. destruct (not_set _); [|reflexivity].
    apply lookup_insert_ne. congruence.
  - intros value Hv Hne. rewrite Hv. destruct value; [congruence|reflexivity].
  - split.
    + intros H. apply not_set_spec in H as Hns. rewrite Hns. split; [reflexivity|].
      intros Heq. assert (Hl : (<["PATH" := default_PATH homeDir]> process_env)
                                 !! "PATH" = process_env !! "PATH") by (rewrite Heq; reflexivity).
      rewrite lookup_insert_eq in Hl.
      destruct H as [H|H]; rewrite H in Hl; [discriminate|].
      injection Hl as Hl. exact (default_PATH_not_empty homeDir Hl).
    + intros [Heq Hne]. apply not_set_spec.
      destruct (not_set (process_env !! "PATH")); [reflexivity|congruence].
  - unfold default_PATH. cbv zeta.
    generalize (Path.join [homeDir; ".local/bin"]) (Path.join [homeDir; "bin"])
      (Path.join [homeDir; ".nvm/current/bin"]) (Path.join [homeDir; ".bun/bin"])
      (Path.join [homeDir; ".deno/bin"]) (Path.join [homeDir; ".cargo/bin"]).
    intros a b c d e f.
    rewrite !append_assoc. reflexivity.
Qed.

Lemma getShellEnv_spec_witness :
  (<["PATH" := "/opt/bin"]> (∅ : Env)) !! "PATH" = Some "/opt/bin" /\
  "/opt/bin" <> "" /\
  getShellEnv (<["PATH" := "/opt/bin"]> ∅) Sample.homeDir
    = <["PATH" := "/opt/bin"]> ∅.
Proof.
  split; [reflexivity|]. split; [discriminate|].
  destruct (getShellEnv_spec (<["PATH" := "/opt/bin"]> ∅) Sample.homeDir)
    as (_ & Hkeep & _).
  apply (Hkeep "/opt/bin"); [reflexivity | discriminate].
Defined.

(** C9: [get_env] asked for [PATH] always finds a value in the
    environment built by [getShellEnv] and returns it; the branch that
    answers "is not set" is never taken for this name. *)
Theorem get_env_PATH_is_set (process_env : Env) (homeDir : string) :
  exists value,
    getShellEnv process_env homeDir !! "PATH" = Some value /\
    value <> "" /\
    get_env process_env homeDir "PATH" = value.
Proof.
  unfold get_env, getShellEnv; cbv zeta.
  destruct (process_env !! "PATH") as [[|c s]|] eqn:Hv; simpl.
  - exists (default_PATH homeDir). rewrite lookup_insert_eq.
    repeat split. apply default_PATH_not_empty.
  - exists (String c s). rewrite Hv. repeat split. discriminate.
  - exists (default_PATH homeDir). rewrite lookup_insert_eq.
    repeat split. apply default_PATH_not_empty.
Qed.

(** ** The filesystem tools *)

Section FsTools.

Variable cwd : string.
Variable baseDir : string.
Variable createPatch : string -> string -> string -> string -> string -> string.

(** C7: for a path the confinement check accepts, [edit_file] on a
    target that does not exist returns the not-found message and leaves
    the filesystem as it was; on an existing regular file it replaces the
    content and returns the success message followed by the patch of the
    old content against the new one. *)
Theorem edit_file_spec (fs : Fs.FS) (filePath newContent p : string) :
  FsServer.normalizePath cwd baseDir filePath = Ok p ->
  (fs !! p = None ->
   FsServer.edit_file cwd baseDir createPatch filePath newContent fs
     = (Ok ("Error: File '" +:+ filePath +:+ "' does not exist"), fs)) /\
  (forall oldContent, fs !! p = Some (Fs.File oldContent) ->
   FsServer.edit_file cwd baseDir createPatch filePath newContent fs
     = (Ok ("File '" +:+ filePath +:+ "' has been edited successfully."
            +:+ Str.nl +:+ Str.nl +:+ "Changes:" +:+ Str.nl
            +:+ createPatch filePath oldContent newContent "Old" "New"),
        <[p := Fs.File newContent]> fs)).
Proof.
  intros Hp. unfold FsServer.edit_file, Fs.try_catch, Fs.bind, Fs.lift.
  rewrite Hp. unfold Fs.existsSync, Fs.exists_in. split.
  - intros Hnone. rewrite Hnone. reflexivity.
  - intros oldContent Hold. unfold Fs.readFileSync, Fs.writeFileSync, Fs.ret.
    repeat (rewrite Hold; cbn [negb]). reflexivity.
Qed.

(** C8 (amended): for a path the confinement check accepts and any
    content, when [write_file] reports success the file holds that
    content and [read_file] of the same path returns exactly it. *)
Theorem write_then_read (fs fs' : Fs.FS) (filePath content p : string) :
  FsServer.normalizePath cwd baseDir filePath = Ok p ->
  FsServer.write_file cwd baseDir filePath content fs
    = (Ok ("File '" +:+ filePath +:+ "' has been written successfully"), fs') ->
  fs' !! p = Some (Fs.File content) /\
  FsServer.read_file cwd baseDir filePath fs' = (Ok content, fs').
Proof.
  intros Hp Hw.
  assert (Hfile : fs' !! p = Some (Fs.File content)).
  { revert Hw. unfold FsServer.write_file, Fs.try_catch, Fs.bind, Fs.lift.
    rewrite Hp. unfold Fs.existsSync.
    set (made := (if negb (Fs.exists_in fs (Path.dirname p))
                  then Fs.mkdirSync_recursive (Path.dirname p)
                  else Fs.ret tt) fs).
    destruct made as [[[]|message] fs1]; [|intros Hw; discriminate Hw].
    unfold Fs.writeFileSync.
    destruct (fs1 !! p) as [[old|]|] eqn:Hl.
    - intros [= <-]. apply lookup_insert_eq.
    - intros Hw; discriminate Hw.
    - destruct (Fs.refused "open" p); [intros Hw; discriminate Hw|].
      destruct (fs1 !! Path.dirname p) as [[old|]|]; try (intros Hw; discriminate Hw).
      destruct (Fs.short_name p); [|intros Hw; discriminate Hw].
      intros [= <-]. apply lookup_insert_eq. }
  split; [exact Hfile|].
  unfold FsServer.read_file, Fs.try_catch, Fs.bind, Fs.lift.
  rewrite Hp. unfold Fs.existsSync, Fs.exists_in, Fs.statSync, Fs.readFileSync.
  repeat (rewrite Hfile; cbn [negb Fs.isFile]). reflexivity.
Qed.

End FsTools.

Lemma edit_file_spec_witness :
  FsServer.normalizePath "/" Sample.baseDir "notes.txt" = Ok "/srv/app/notes.txt" /\
  Sample.fs !! "/srv/app/notes.txt" = Some (Fs.File "first line") /\
  FsServer.edit_file "/" Sample.baseDir Sample.createPatch "notes.txt"
    "second line" Sample.fs
  = (Ok ("File 'notes.txt' has been edited successfully."
         +:+ Str.nl +:+ Str.nl +:+ "Changes:" +:+ Str.nl
         +:+ Sample.createPatch "notes.txt" "first line" "second line" "Old" "New"),
     <["/srv/app/notes.txt" := Fs.File "second line"]> Sample.fs).
Proof.
  split; [reflexivity|]. split; [reflexivity|].
  apply (proj2 (edit_file_spec "/" Sample.baseDir Sample.createPatch Sample.fs
                  "notes.txt" "second line" "/srv/app/notes.txt" eq_refl)).
  reflexivity.
Defined.

(** C8, as stated, fails: the path [.] passes the confinement check (it
    is the base directory), [write_file] cannot write to a directory and
    reports the error, and [read_file] then answers that [.] is not a
    file instead of returning the content. *)
Lemma write_then_read_base_directory :
  FsServer.normalizePath "/" Sample.baseDir "." = Ok "/srv/app" /\
  fst (FsServer.write_file "/" Sample.baseDir "." "hello" Sample.fs)
    = Ok "Error writing file: EISDIR: illegal operation on a directory, open '/srv/app'" /\
  fst (FsServer.read_file "/" Sample.baseDir "."
         (snd (FsServer.write_file "/" Sample.baseDir "." "hello" Sample.fs)))
    = Ok "Error: '.' is not a file" /\
  fst (FsServer.read_file "/" Sample.baseDir "."
         (snd (FsServer.write_file "/" Sample.baseDir "." "hello" Sample.fs)))
    <> Ok "hello".
Proof. repeat split; vm_compute; [reflexivity..|discriminate]. Qed.

Lemma write_then_read_witness :
  FsServer.normalizePath "/" Sample.baseDir "docs/new/a.txt"
    = Ok "/srv/app/docs/new/a.txt" /\
  FsServer.read_file "/" Sample.baseDir "docs/new/a.txt"
    (snd (FsServer.write_file "/" Sample.baseDir "docs/new/a.txt" "hello" Sample.fs))
  = (Ok "hello",
     snd (FsServer.write_file "/" Sample.baseDir "docs/new/a.txt" "hello" Sample.fs)).
Proof.
  split; [reflexivity|].
  apply (write_then_read "/" Sample.baseDir Sample.fs _ "docs/new/a.txt" "hello"
           "/srv/app/docs/new/a.txt" eq_refl).
  vm_compute. reflexivity.
Defined.

(** ** Paths and their segments *)

Lemma append_cons (c : ascii) (a b : string) :
  String c a +:+ b = String c (a +:+ b).
Proof. reflexivity. Qed.

Lemma rev_app_rev_app (s t u : string) :
  String.rev_app (String.rev_app s t) u = String.rev_app t (s +:+ u).
Proof.
  revert t u. induction s as [|a s IH]; intros t u; [reflexivity|].
  cbn [String.rev_app]. rewrite IH. reflexivity.
Qed.

Lemma rev_rev_app (s : string) : String.rev (String.rev_app s "") = s.
Proof.
  unfold String.rev. rewrite rev_app_rev_app. cbn [String.rev_app].
  apply append_empty_r.
Qed.

(** Splitting at a separator splits both sides. *)
Lemma split_go_app (sep : ascii) (cur a b : string) :
  Str.split_go sep cur (a +:+ String sep b)
  = (Str.split_go sep cur a ++ Str.split_go sep "" b)%list.
Proof.
  revert cur. induction a as [|c a IH]; intros cur.
  - change ("" +:+ String sep b) with (String sep b). cbn [Str.split_go].
    rewrite Ascii.eqb_refl. reflexivity.
  - rewrite append_cons. cbn [Str.split_go].
    destruct (Ascii.eqb c sep); rewrite IH; reflexivity.
Qed.

Lemma split_app (a b : string) :
  Str.split Path.slash (a +:+ "/" +:+ b)
  = (Str.split Path.slash a ++ Str.split Path.slash b)%list.
Proof. apply (split_go_app Path.slash "" a b). Qed.

Lemma split_go_slashfree (cur s : string) :
  Path.slashfree s = true ->
  Str.split_go Path.slash cur s = [String.rev (String.rev_app s cur)].
Proof.
  revert cur. induction s as [|c s IH]; intros cur Hs; [reflexivity|].
  cbn [Path.slashfree] in Hs. apply andb_prop in Hs as [Hc Hs].
  cbn [Str.split_go String.rev_app].
  destruct (Ascii.eqb c Path.slash); [discriminate|]. apply IH. exact Hs.
Qed.

Lemma split_slashfree (s : string) :
  Path.slashfree s = true -> Str.split Path.slash s = [s].
Proof.
  intros Hs. unfold Str.split. rewrite split_go_slashfree by exact Hs.
  rewrite rev_rev_app. reflexivity.
Qed.

Lemma slashfree_rev_app (s t : string) :
  Path.slashfree s = true -> Path.slashfree t = true ->
  Path.slashfree (String.rev_app s t) = true.
Proof.
  revert t. induction s as [|c s IH]; intros t Hs Ht; [exact Ht|].
  cbn [Path.slashfree] in Hs. apply andb_prop in Hs as [Hc Hs].
  cbn [String.rev_app]. apply IH; [exact Hs|].
  cbn [Path.slashfree]. rewrite Hc, Ht. reflexivity.
Qed.

(** The pieces of a split hold no separator. *)
Lemma split_go_pieces (cur s : string) :
  Path.slashfree cur = true ->
  Forall (fun piece => Path.slashfree piece = true)
    (Str.split_go Path.slash cur s).
Proof.
  revert cur. induction s as [|c s IH]; intros cur Hcur; cbn [Str.split_go].
  - constructor; [|constructor]. apply slashfree_rev_app; [exact Hcur|reflexivity].
  - destruct (Ascii.eqb c Path.slash) eqn:Hc.
    + constructor; [|apply IH; reflexivity].
      apply slashfree_rev_app; [exact Hcur|reflexivity].
    + apply IH. cbn [Path.slashfree]. rewrite Hc, Hcur. reflexivity.
Qed.

Lemma plain_spec (seg : string) :
  Path.plain seg = true <->
  Path.slashfree seg = true /\ seg <> "" /\ seg <> "." /\ seg <> "..".
Proof.
  unfold Path.plain. rewrite !andb_true_iff, !negb_true_iff, !String.eqb_neq.
  tauto.
Qed.

Lemma push_plain (b : bool) (res : list string) (seg : string) :
  Path.plain seg = true -> Path.push_segment b res seg = seg :: res.
Proof.
  intros H. apply plain_spec in H as (_ & H1 & H2 & H3).
  unfold Path.push_segment.
  apply String.eqb_neq in H1, H2, H3. rewrite H1, H2, H3. reflexivity.
Qed.

Lemma pushes_plain (b : bool) (segs res : list string) :
  Forall (fun seg => Path.plain seg = true) segs ->
  fold_left (Path.push_segment b) segs res = (rev segs ++ res)%list.
Proof.
  intros H. revert res. induction H as [|seg segs Hseg _ IH]; intros res.
  - reflexivity.
  - cbn [fold_left rev]. rewrite push_plain by exact Hseg.
    rewrite IH, <- app_assoc. reflexivity.
Qed.

(** Below the root, [normalizeString] keeps only plain segments. *)
Lemma push_false_plain (res : list string) (seg : string) :
  Forall (fun s => Path.plain s = true) res ->
  Path.slashfree seg = true ->
  Forall (fun s => Path.plain s = true) (Path.push_segment false res seg).
Proof.
  intros Hres Hseg. unfold Path.push_segment.
  destruct (String.eqb_spec seg ""); [exact Hres|].
  destruct (String.eqb_spec seg "."); [exact Hres|].
  destruct (String.eqb_spec seg "..").
  - destruct res as [|last rest]; [constructor|].
    destruct (String.eqb last ".."); [exact Hres|].
    inversion Hres; assumption.
  - constructor; [|exact Hres]. apply plain_spec. auto.
Qed.

Lemma pushes_false_plain (pieces res : list string) :
  Forall (fun s => Path.slashfree s = true) pieces ->
  Forall (fun s => Path.plain s = true) res ->
  Forall (fun s => Path.plain s = true)
    (fold_left (Path.push_segment false) pieces res).
Proof.
  intros H. revert res. induction H as [|seg segs Hseg _ IH]; intros res Hres.
  - exact Hres.
  - cbn [fold_left]. apply IH. apply push_false_plain; assumption.
Qed.

Lemma normalizeSegments_plain (p : string) :
  Forall (fun s => Path.plain s = true) (Path.normalizeSegments false p).
Proof.
  unfold Path.normalizeSegments. apply Forall_rev.
  apply pushes_false_plain; [|constructor].
  apply split_go_pieces. reflexivity.
Qed.

Lemma concat_cons2 (x y : string) (l : list string) :
  String.concat "/" (x :: y :: l) = x +:+ "/" +:+ String.concat "/" (y :: l).
Proof. reflexivity. Qed.

Lemma split_concat (segs : list string) :
  Forall (fun s => Path.plain s = true) segs -> segs <> [] ->
  Str.split Path.slash (String.concat "/" segs) = segs.
Proof.
  intros H. induction H as [|x segs Hx Hsegs IH]; intros Hne; [congruence|].
  apply plain_spec in Hx as (Hx & _).
  destruct segs as [|y segs].
  - cbn [String.concat]. apply split_slashfree. exact Hx.
  - rewrite concat_cons2, split_app, split_slashfree by exact Hx.
    rewrite IH by discriminate. reflexivity.
Qed.

(** The segments of a path written from plain segments are these
    segments. *)
Lemma normalizeSegments_of_segments (b : bool) (segs : list string) :
  Forall (fun s => Path.plain s = true) segs ->
  Path.normalizeSegments b (Path.of_segments segs) = segs.
Proof.
  intros H. unfold Path.normalizeSegments, Path.of_segments.
  change ("/" +:+ String.concat "/" segs)
    with ("" +:+ "/" +:+ String.concat "/" segs).
  rewrite split_app. destruct segs as [|x segs].
  - reflexivity.
  - rewrite split_concat by (exact H || discriminate).
    rewrite fold_left_app.
    change (fold_left (Path.push_segment b) (Str.split Path.slash "") [])
      with (@nil string).
    rewrite pushes_plain by exact H. rewrite app_nil_r. apply rev_involutive.
Qed.

Lemma prefix_refl (s : string) : String.prefix s s = true.
Proof.
  induction s as [|c s IH]; [reflexivity|]. cbn [String.prefix].
  destruct (ascii_dec c c); [exact IH | congruence].
Qed.


Lemma prefix_length (a b : string) :
  String.prefix a b = true -> String.length a <= String.length b.
Proof.
  revert a. induction b as [|c b IH]; intros [|d a] H; cbn in *;
    try lia; try discriminate.
  destruct (ascii_dec d c); [|discriminate]. apply IH in H. lia.
Qed.

Lemma length_append (a b : string) :
  String.length (a +:+ b) = String.length a + String.length b.
Proof.
  induction a as [|c a IH]; [reflexivity|].
  rewrite append_cons. cbn [String.length]. rewrite IH. reflexivity.
Qed.

Lemma last_char_append (a b : string) :
  b <> "" -> Str.last_char (a +:+ b) = Str.last_char b.
Proof.
  intros Hb. induction a as [|c a IH]; [reflexivity|].
  rewrite append_cons. cbn [Str.last_char]. rewrite IH.
  destruct (a +:+ b) eqn:Hab; [|reflexivity].
  destruct a; [change (b = "") in Hab; congruence|].
  rewrite append_cons in Hab. discriminate.
Qed.

Lemma slashfree_no_trailing (s : string) :
  Path.slashfree s = true -> Path.hasTrailingSeparator s = false.
Proof.
  unfold Path.hasTrailingSeparator.
  induction s as [|c s IH]; intros Hs; [reflexivity|].
  cbn [Path.slashfree] in Hs. apply andb_prop in Hs as [Hc Hs].
  destruct s as [|d s].
  - cbn. apply negb_true_iff in Hc. exact Hc.
  - apply IH. exact Hs.
Qed.

Lemma concat_not_empty (x : string) (l : list string) :
  x <> "" -> String.concat "/" (x :: l) <> "".
Proof.
  intros Hx. destruct l as [|y l]; [exact Hx|].
  rewrite concat_cons2. destruct x; [congruence|discriminate].
Qed.

Lemma concat_no_trailing (segs : list string) :
  Forall (fun s => Path.plain s = true) segs ->
  Path.hasTrailingSeparator (String.concat "/" segs) = false.
Proof.
  intros H. induction H as [|x segs Hx Hsegs IH]; [reflexivity|].
  apply plain_spec in Hx as (Hx & Hne & _).
  destruct segs as [|y segs].
  - apply slashfree_no_trailing. exact Hx.
  - rewrite concat_cons2. unfold Path.hasTrailingSeparator in *.
    inversion Hsegs as [|? ? Hy _]; subst.
    apply plain_spec in Hy as (_ & Hyne & _).
    rewrite last_char_append.
    + rewrite last_char_append by (apply concat_not_empty; exact Hyne). exact IH.
    + destruct (String.concat "/" (y :: segs)); discriminate.
Qed.

(** [path.normalize] leaves a path written from plain segments as it
    is. *)
Lemma normalize_of_segments (segs : list string) :
  Forall (fun s => Path.plain s = true) segs ->
  Path.normalize (Path.of_segments segs) = Path.of_segments segs.
Proof.
  intros H. unfold Path.normalize, Path.normalizeString.
  change (String.eqb (Path.of_segments segs) "") with false.
  change (Path.isAbsolute (Path.of_segments segs)) with true. cbv zeta.
  cbn [negb]. rewrite normalizeSegments_of_segments by exact H.
  destruct segs as [|x segs]; [reflexivity|].
  inversion H as [|? ? Hx _]; subst. apply plain_spec in Hx as (_ & Hne & _).
  pose proof (concat_not_empty x segs Hne) as Hc.
  apply String.eqb_neq in Hc. rewrite Hc.
  assert (Ht : Path.hasTrailingSeparator (Path.of_segments (x :: segs)) = false).
  { unfold Path.of_segments, Path.hasTrailingSeparator.
    rewrite last_char_append by (apply concat_not_empty; exact Hne).
    apply (concat_no_trailing (x :: segs) H). }
  rewrite Ht. reflexivity.
Qed.

Lemma resolve_loop_absolute (cwd : string) (rev_args : list string)
    (acc : string) :
  Path.isAbsolute cwd = true -> snd (Path.resolve_loop rev_args cwd acc) = true.
Proof.
  intros Hcwd. revert acc. induction rev_args as [|p rest IH]; intros acc;
    cbn [Path.resolve_loop].
  - destruct cwd; [discriminate|]. exact Hcwd.
  - destruct (String.eqb p ""); [apply IH|].
    destruct (Path.isAbsolute p); [reflexivity | apply IH].
Qed.

(** In a process with an absolute working directory, [path.resolve]
    returns a path written from plain segments. *)
Lemma resolve_form (cwd : string) (args : list string) :
  Path.isAbsolute cwd = true ->
  exists segs, Forall (fun s => Path.plain s = true) segs /\
               Path.resolve cwd args = Path.of_segments segs.
Proof.
  intros Hcwd. unfold Path.resolve.
  pose proof (resolve_loop_absolute cwd (rev args) "" Hcwd) as Habs.
  destruct (Path.resolve_loop (rev args) cwd "") as [s abs]. cbn in Habs. subst abs.
  exists (Path.normalizeSegments false s). split; [apply normalizeSegments_plain|].
  reflexivity.
Qed.

(** Resolving a relative candidate against a base directory written
    from plain segments walks the candidate's pieces from the base. *)
Lemma resolve_in_base (cwd : string) (bsegs : list string) (cand : string) :
  Forall (fun s => Path.plain s = true) bsegs ->
  Path.isAbsolute cand = false ->
  Path.resolve cwd [Path.of_segments bsegs; cand]
  = Path.of_segments
      (rev (fold_left (Path.push_segment false) (Str.split Path.slash cand)
              (rev bsegs))).
Proof.
  intros Hb Hrel.
  assert (Hbase : forall rest,
    Path.normalizeSegments false (Path.of_segments bsegs +:+ "/" +:+ rest)
    = rev (fold_left (Path.push_segment false) (Str.split Path.slash rest)
             (rev bsegs))).
  { intros rest. unfold Path.normalizeSegments at 1.
    rewrite split_app, fold_left_app.
    pose proof (normalizeSegments_of_segments false bsegs Hb) as Hn.
    unfold Path.normalizeSegments in Hn.
    apply (f_equal (@rev string)) in Hn. rewrite rev_involutive in Hn.
    rewrite Hn. reflexivity. }
  unfold Path.resolve. cbn [rev app Path.resolve_loop].
  change (String.eqb (Path.of_segments bsegs) "") with false.
  change (Path.isAbsolute (Path.of_segments bsegs)) with true.
  destruct (String.eqb_spec cand "") as [->|Hne].
  - cbn [negb]. unfold Path.normalizeString. rewrite Hbase. reflexivity.
  - rewrite Hrel. cbn [negb]. unfold Path.normalizeString.
    rewrite Hbase, split_app, fold_left_app. reflexivity.
Qed.

Lemma split_concat_slashfree (segs : list string) :
  Forall (fun s => Path.slashfree s = true) segs -> segs <> [] ->
  Str.split Path.slash (String.concat "/" segs) = segs.
Proof.
  intros H. induction H as [|x segs Hx Hsegs IH]; intros Hne; [congruence|].
  destruct segs as [|y segs].
  - cbn [String.concat]. apply split_slashfree. exact Hx.
  - rewrite concat_cons2, split_app, split_slashfree by exact Hx.
    rewrite IH by discriminate. reflexivity.
Qed.

Lemma isAbsolute_concat (x : string) (l : list string) :
  x <> "" -> Path.isAbsolute (String.concat "/" (x :: l)) = Path.isAbsolute x.
Proof.
  intros Hx. destruct l as [|y l]; [reflexivity|].
  rewrite concat_cons2. destruct x; [congruence|reflexivity].
Qed.


Lemma concat_app (a b : list string) :
  a <> [] -> b <> [] ->
  String.concat "/" (a ++ b)
  = String.concat "/" a +:+ "/" +:+ String.concat "/" b.
Proof.
  intros Ha Hb. induction a as [|x a IH]; [congruence|].
  destruct a as [|y a].
  - destruct b as [|z b]; [congruence|]. reflexivity.
  - change ((x :: y :: a) ++ b)%list with (x :: y :: (a ++ b))%list.
    rewrite !concat_cons2.
    change (y :: (a ++ b))%list with ((y :: a) ++ b)%list.
    rewrite IH by discriminate. rewrite !append_assoc. reflexivity.
Qed.

Lemma of_segments_app (a b : list string) :
  a <> [] -> b <> [] ->
  Path.of_segments (a ++ b)
  = Path.of_segments a +:+ "/" +:+ String.concat "/" b.
Proof.
  intros Ha Hb. unfold Path.of_segments. rewrite concat_app by assumption.
  rewrite append_assoc. reflexivity.
Qed.

Lemma concat_app_longer (pre suf : list string) :
  Forall (fun s => Path.plain s = true) suf -> suf <> [] ->
  String.length (String.concat "/" pre)
  < String.length (String.concat "/" (pre ++ suf)).
Proof.
  intros Hsuf Hne. destruct pre as [|x pre].
  - destruct suf as [|y suf]; [congruence|]. inversion Hsuf as [|? ? Hy _]; subst.
    apply plain_spec in Hy as (_ & Hy & _).
    pose proof (concat_not_empty y suf Hy) as Hc. cbn [app].
    destruct (String.concat "/" (y :: suf)); [congruence|]. cbn. lia.
  - rewrite concat_app by (discriminate || exact Hne).
    rewrite !length_append. cbn. lia.
Qed.

(** A path that stops above the base directory does not begin with
    it. *)
Lemma ancestor_not_prefixed (pre suf : list string) :
  Forall (fun s => Path.plain s = true) suf -> suf <> [] ->
  Str.startsWith (Path.of_segments pre) (Path.of_segments (pre ++ suf)) = false.
Proof.
  intros Hsuf Hne. unfold Str.startsWith.
  destruct (String.prefix _ _) eqn:Hp; [|reflexivity].
  apply prefix_length in Hp. unfold Path.of_segments in Hp.
  rewrite !length_append in Hp.
  pose proof (concat_app_longer pre suf Hsuf Hne). lia.
Qed.

Lemma push_dotdot (res : list string) :
  Forall (fun s => Path.plain s = true) res ->
  Path.push_segment false res ".." = drop 1 res.
Proof.
  intros H. unfold Path.push_segment. cbn [String.eqb Ascii.eqb Bool.eqb].
  destruct H as [|last rest Hlast _]; [reflexivity|].
  apply plain_spec in Hlast as (_ & _ & _ & Hdd).
  apply String.eqb_neq in Hdd. rewrite Hdd. reflexivity.
Qed.

Lemma pushes_dotdot (n : nat) (res : list string) :
  Forall (fun s => Path.plain s = true) res ->
  fold_left (Path.push_segment false) (replicate n "..") res = drop n res.
Proof.
  revert res. induction n as [|n IH]; intros res H; [reflexivity|].
  cbn [replicate fold_left]. rewrite push_dotdot by exact H.
  rewrite IH by (apply Forall_drop; exact H).
  rewrite drop_drop. reflexivity.
Qed.

Lemma slashfree_dotdot (n : nat) :
  Forall (fun s => Path.slashfree s = true) (replicate n "..").
Proof. apply Forall_replicate. reflexivity. Qed.

(** X1: the empty candidate and ["."] are the base directory itself. *)
Theorem normalizePath_base (cwd cand : string) (bsegs : list string) :
  Forall (fun s => Path.plain s = true) bsegs ->
  cand = "" \/ cand = "." ->
  FsServer.normalizePath cwd (Path.of_segments bsegs) cand
    = Ok (Path.of_segments bsegs).
Proof.
  intros Hb Hc. unfold FsServer.normalizePath.
  assert (Hr : Path.resolve cwd [Path.of_segments bsegs; cand]
               = Path.of_segments bsegs).
  { rewrite resolve_in_base by (exact Hb || (destruct Hc; subst; reflexivity)).
    destruct Hc; subst.
    - change (fold_left (Path.push_segment false) (Str.split Path.slash "")
                (rev bsegs)) with (rev bsegs).
      rewrite rev_involutive. reflexivity.
    - change (fold_left (Path.push_segment false) (Str.split Path.slash ".")
                (rev bsegs)) with (rev bsegs).
      rewrite rev_involutive. reflexivity. }
  rewrite Hr, normalize_of_segments by exact Hb.
  unfold Str.startsWith. rewrite prefix_refl. reflexivity.
Qed.

Lemma normalizePath_base_witness :
  FsServer.normalizePath "/" (Path.of_segments ["srv"; "app"]) ""
    = Ok "/srv/app".
Proof.
  apply (normalizePath_base "/" "" ["srv"; "app"]).
  - repeat constructor.
  - left. reflexivity.
Defined.



Lemma truthy_spec (s : string) : Str.truthy s = true <-> s <> "".
Proof. destruct s; cbn; split; congruence. Qed.

(** X3: a candidate made only of [".."] segments is rejected by both
    servers whenever the base directory is not the root. *)
Theorem traversal_rejected (cwd : string) (bsegs : list string) (n : nat) :
  Forall (fun s => Path.plain s = true) bsegs ->
  bsegs <> [] ->
  let cand := String.concat "/" (replicate (S n) "..") in
  FsServer.normalizePath cwd (Path.of_segments bsegs) cand
    = Throw ("Access denied: " +:+ cand +:+ " is outside the base directory") /\
  forall process_env homeDir fs command timeout,
    run_command cwd (Path.of_segments bsegs) process_env homeDir fs command
      (Some cand) timeout
    = Returned "Error: Working directory must be within the base directory".
Proof.
  intros Hb Hne cand.
  assert (Hcne : cand <> "") by (apply concat_not_empty; discriminate).
  assert (Hrel : Path.isAbsolute cand = false).
  { unfold cand. cbn [replicate]. rewrite isAbsolute_concat by discriminate.
    reflexivity. }
  set (pre := rev (drop (S n) (rev bsegs))).
  set (suf := rev (take (S n) (rev bsegs))).
  assert (Hsplit : bsegs = (pre ++ suf)%list).
  { unfold pre, suf. rewrite <- rev_app_distr, take_drop, rev_involutive.
    reflexivity. }
  assert (Hsuf : suf <> []).
  { unfold suf. destruct (rev bsegs) as [|x l] eqn:Hr.
    - apply (f_equal (@rev string)) in Hr. rewrite rev_involutive in Hr.
      cbn in Hr. congruence.
    - cbn [take rev]. intros Hnil. apply app_eq_nil in Hnil as [_ Hnil].
      discriminate. }
  assert (Hplain : Forall (fun s => Path.plain s = true) pre /\
                   Forall (fun s => Path.plain s = true) suf).
  { apply Forall_app. rewrite <- Hsplit. exact Hb. }
  destruct Hplain as [Hpre Hsufp].
  assert (Hres : Path.resolve cwd [Path.of_segments bsegs; cand]
                 = Path.of_segments pre).
  { rewrite resolve_in_base by assumption. unfold cand.
    rewrite split_concat_slashfree by (apply slashfree_dotdot || discriminate).
    rewrite pushes_dotdot by (apply Forall_rev; exact Hb). reflexivity. }
  assert (Hout : Str.startsWith (Path.of_segments pre) (Path.of_segments bsegs)
                 = false).
  { rewrite Hsplit. apply ancestor_not_prefixed; assumption. }
  split.
  - unfold FsServer.normalizePath.
    rewrite Hres, normalize_of_segments, Hout by exact Hpre. reflexivity.
  - intros process_env homeDir fs command timeout.
    unfold run_command, working_directory.
    change (default "" (Some cand)) with cand. cbv zeta.
    apply truthy_spec in Hcne. rewrite Hcne, Hres, Hout. reflexivity.
Qed.

Lemma traversal_rejected_witness :
  FsServer.normalizePath "/" (Path.of_segments ["srv"; "app"])
    (String.concat "/" (replicate 3 ".."))
  = Throw "Access denied: ../../.. is outside the base directory".
Proof.
  apply (traversal_rejected "/" ["srv"; "app"] 2).
  - repeat constructor.
  - discriminate.
Defined.

(** An accepted path is the path written from its own segments. *)
Lemma accepted_segments (cwd baseDir filePath p : string) :
  Path.isAbsolute cwd = true ->
  FsServer.normalizePath cwd baseDir filePath = Ok p ->
  Path.of_segments (Path.segments p) = p.
Proof.
  intros Hcwd Hp. unfold FsServer.normalizePath in Hp.
  destruct (resolve_form cwd [baseDir; filePath] Hcwd) as (segs & Hsegs & Hr).
  rewrite Hr, normalize_of_segments in Hp by exact Hsegs.
  destruct (negb _); [discriminate|]. injection Hp as <-.
  unfold Path.segments. rewrite normalizeSegments_of_segments by exact Hsegs.
  reflexivity.
Qed.

(** X4: in a process with an absolute working directory, a path that
    [normalizePath] accepts is absolute and normalized: it is written
    from plain segments (none empty, ["."] or [".."]), and it begins
    with the base directory. *)
Theorem normalizePath_normalized (cwd baseDir filePath p : string) :
  Path.isAbsolute cwd = true ->
  FsServer.normalizePath cwd baseDir filePath = Ok p ->
  Str.startsWith p baseDir = true /\
  exists segs, Forall (fun s => Path.plain s = true) segs /\
               p = Path.of_segments segs /\ Path.segments p = segs.
Proof.
  intros Hcwd Hp. split.
  - unfold FsServer.normalizePath in Hp.
    destruct (Str.startsWith _ baseDir) eqn:Hpre; cbn [negb] in Hp;
      [|discriminate].
    injection Hp as <-. exact Hpre.
  - exists (Path.segments p). split; [apply normalizeSegments_plain|].
    split; [|reflexivity].
    symmetry. apply (accepted_segments cwd baseDir filePath p Hcwd Hp).
Qed.

Lemma normalizePath_normalized_witness :
  exists segs, Forall (fun s => Path.plain s = true) segs /\
               "/srv/app/b" = Path.of_segments segs /\
               Path.segments "/srv/app/b" = segs.
Proof.
  apply (normalizePath_normalized "/" "/srv/app" "a/.././b//" "/srv/app/b").
  - reflexivity.
  - reflexivity.
Defined.












(** ** The filesystem tools, continued *)

Section FsToolsMore.

Variable cwd : string.
Variable baseDir : string.
Variable createPatch : string -> string -> string -> string -> string -> string.
Variable minimatch : string -> string -> bool.

(** X6: [read_file] on an accepted path answers by what the path
    names: the not-found message when nothing, the not-a-file message
    for a directory, the content of a regular file; it leaves the
    filesystem as it was. *)
Theorem read_file_spec (fs : Fs.FS) (filePath p : string) :
  FsServer.normalizePath cwd baseDir filePath = Ok p ->
  FsServer.read_file cwd baseDir filePath fs
  = (Ok match fs !! p with
        | None => "Error: File '" +:+ filePath +:+ "' does not exist"
        | Some Fs.Dir => "Error: '" +:+ filePath +:+ "' is not a file"
        | Some (Fs.File content) => content
        end, fs).
Proof.
  intros Hp. unfold FsServer.read_file, Fs.try_catch, Fs.bind, Fs.lift.
  rewrite Hp. unfold Fs.existsSync, Fs.exists_in, Fs.statSync, Fs.readFileSync.
  destruct (fs !! p) as [[content|]|] eqn:Hl; cbn [negb Fs.isFile];
    repeat (rewrite Hl; cbn [negb Fs.isFile]); reflexivity.
Qed.

(** X7: [delete_file] on an accepted path removes a regular file and
    nothing else; for a missing path or a directory it answers with the
    not-found or not-a-file message and leaves the filesystem as it
    was. *)
Theorem delete_file_spec (fs : Fs.FS) (filePath p : string) :
  FsServer.normalizePath cwd baseDir filePath = Ok p ->
  FsServer.delete_file cwd baseDir filePath fs
  = match fs !! p with
    | None => (Ok ("Error: File '" +:+ filePath +:+ "' does not exist"), fs)
    | Some Fs.Dir => (Ok ("Error: '" +:+ filePath +:+ "' is not a file"), fs)
    | Some (Fs.File _) =>
        (Ok ("File '" +:+ filePath +:+ "' has been deleted successfully"),
         delete p fs)
    end.
Proof.
  intros Hp. unfold FsServer.delete_file, Fs.try_catch, Fs.bind, Fs.lift.
  rewrite Hp. unfold Fs.existsSync, Fs.exists_in, Fs.statSync, Fs.unlinkSync.
  destruct (fs !! p) as [[content|]|] eqn:Hl; cbn [negb Fs.isFile];
    repeat (rewrite Hl; cbn [negb Fs.isFile]); reflexivity.
Qed.

(** X8: once [delete_file] has removed a file, the path names nothing,
    every other entry is as before, and both [read_file] and a second
    [delete_file] of the same path answer with the not-found message
    without changing anything. *)
Theorem delete_file_then (fs : Fs.FS) (filePath p content : string) :
  FsServer.normalizePath cwd baseDir filePath = Ok p ->
  fs !! p = Some (Fs.File content) ->
  let fs' := snd (FsServer.delete_file cwd baseDir filePath fs) in
  fs' !! p = None /\
  (forall q, q <> p -> fs' !! q = fs !! q) /\
  FsServer.read_file cwd baseDir filePath fs'
    = (Ok ("Error: File '" +:+ filePath +:+ "' does not exist"), fs') /\
  FsServer.delete_file cwd baseDir filePath fs'
    = (Ok ("Error: File '" +:+ filePath +:+ "' does not exist"), fs').
Proof.
  intros Hp Hfile fs'.
  assert (Hfs' : fs' = delete p fs).
  { unfold fs', FsServer.delete_file, Fs.try_catch, Fs.bind, Fs.lift.
    rewrite Hp. unfold Fs.existsSync, Fs.exists_in, Fs.statSync, Fs.unlinkSync.
    repeat (rewrite Hfile; cbn [negb Fs.isFile]). reflexivity. }
  assert (Hgone : fs' !! p = None) by (rewrite Hfs'; apply lookup_delete_eq).
  split; [exact Hgone|]. split.
  - intros q Hq. rewrite Hfs'. apply lookup_delete_ne. congruence.
  - unfold FsServer.read_file, FsServer.delete_file, Fs.try_catch, Fs.bind,
      Fs.lift.
    rewrite Hp. unfold Fs.existsSync, Fs.exists_in. rewrite Hgone.
    split; reflexivity.
Qed.

(** X9: a path that the confinement check rejects reaches no tool:
    each of the five tools answers with its own error prefix followed by
    the access-denied message, and the filesystem is left as it was. *)
Theorem rejected_path_untouched (fs : Fs.FS) (filePath content pattern message : string) :
  FsServer.normalizePath cwd baseDir filePath = Throw message ->
  message = "Access denied: " +:+ filePath +:+ " is outside the base directory" /\
  FsServer.read_file cwd baseDir filePath fs
    = (Ok ("Error reading file: " +:+ message), fs) /\
  FsServer.write_file cwd baseDir filePath content fs
    = (Ok ("Error writing file: " +:+ message), fs) /\
  FsServer.edit_file cwd baseDir createPatch filePath content fs
    = (Ok ("Error editing file: " +:+ message), fs) /\
  FsServer.delete_file cwd baseDir filePath fs
    = (Ok ("Error deleting file: " +:+ message), fs) /\
  FsServer.list_files cwd baseDir minimatch pattern (Some filePath) fs
    = (Ok ("Error listing files: " +:+ message), fs).
Proof.
  intros Hp. split.
  - unfold FsServer.normalizePath in Hp. destruct (negb _); congruence.
  - unfold FsServer.read_file, FsServer.write_file, FsServer.edit_file,
      FsServer.delete_file, FsServer.list_files, Fs.try_catch, Fs.bind, Fs.lift.
    change (default "." (Some filePath)) with filePath.
    rewrite Hp. repeat split.
Qed.

(** X10: no tool of the filesystem server raises: whatever the
    filesystem and the arguments, each returns a text. *)
Theorem tools_return_text (fs : Fs.FS) (filePath content pattern : string)
    (directory : option string) :
  (exists text, fst (FsServer.read_file cwd baseDir filePath fs) = Ok text) /\
  (exists text, fst (FsServer.write_file cwd baseDir filePath content fs) = Ok text) /\
  (exists text, fst (FsServer.edit_file cwd baseDir createPatch filePath content fs)
                = Ok text) /\
  (exists text, fst (FsServer.delete_file cwd baseDir filePath fs) = Ok text) /\
  (exists text, fst (FsServer.list_files cwd baseDir minimatch pattern directory fs)
                = Ok text).
Proof.
  assert (H : forall (body : Fs.M string) (f : string -> string),
             exists text, fst (Fs.try_catch body (fun m => Fs.ret (f m)) fs) = Ok text).
  { intros body f. unfold Fs.try_catch.
    destruct (body fs) as [[text|m] fs']; eexists; reflexivity. }
  repeat split; apply H.
Qed.

End FsToolsMore.

Lemma read_file_spec_witness :
  FsServer.read_file "/" Sample.baseDir "notes.txt" Sample.fs
  = (Ok "first line", Sample.fs).
Proof.
  apply (read_file_spec "/" Sample.baseDir Sample.fs "notes.txt"
           "/srv/app/notes.txt" eq_refl).
Defined.

Lemma delete_file_spec_witness :
  FsServer.delete_file "/" Sample.baseDir "notes.txt" Sample.fs
  = (Ok "File 'notes.txt' has been deleted successfully",
     delete "/srv/app/notes.txt" Sample.fs).
Proof.
  apply (delete_file_spec "/" Sample.baseDir Sample.fs "notes.txt"
           "/srv/app/notes.txt" eq_refl).
Defined.

Lemma delete_file_then_witness :
  snd (FsServer.delete_file "/" Sample.baseDir "notes.txt" Sample.fs)
    !! "/srv/app/notes.txt" = None.
Proof.
  apply (delete_file_then "/" Sample.baseDir Sample.fs "notes.txt"
           "/srv/app/notes.txt" "first line" eq_refl eq_refl).
Defined.

Lemma rejected_path_untouched_witness :
  FsServer.delete_file "/" Sample.baseDir "../../etc/passwd" Sample.fs
  = (Ok ("Error deleting file: "
         +:+ "Access denied: ../../etc/passwd is outside the base directory"),
     Sample.fs).
Proof.
  apply (rejected_path_untouched "/" Sample.baseDir Sample.createPatch
           (fun _ _ => true) Sample.fs "../../etc/passwd" "" "*" _ eq_refl).
Defined.

(** ** Writing and editing *)

Lemma mkdir_step_preserves (p : string) (r r' : result unit) (fs fs' : Fs.FS)
    (d q : string) (n : Fs.node) :
  Fs.mkdir_step p (r, fs) d = (r', fs') ->
  fs !! q = Some n -> fs' !! q = Some n.
Proof.
  unfold Fs.mkdir_step. intros Hstep Hq.
  destruct r as [[]|m]; [|injection Hstep as _ <-; exact Hq].
  destruct (fs !! d) as [[c|]|] eqn:Hd; [| |destruct (Fs.short_name d)];
    injection Hstep as _ <-; try exact Hq.
  rewrite lookup_insert_ne; [exact Hq|]. intros ->. congruence.
Qed.

(** [mkdirSync] with [recursive] never replaces or removes an entry. *)
Lemma mkdir_fold_preserves (p : string) (ds : list string) (r r' : result unit)
    (fs fs' : Fs.FS) (q : string) (n : Fs.node) :
  fold_left (Fs.mkdir_step p) ds (r, fs) = (r', fs') ->
  fs !! q = Some n -> fs' !! q = Some n.
Proof.
  revert r fs. induction ds as [|d ds IH]; intros r fs Hfold Hq;
    cbn [fold_left] in Hfold.
  - injection Hfold as _ <-. exact Hq.
  - destruct (Fs.mkdir_step p (r, fs) d) as [r1 fs1] eqn:Hstep.
    eapply IH; [exact Hfold|]. eapply mkdir_step_preserves; eassumption.
Qed.

(** When none of the directories to make is a regular file and each can
    be named, all of them are directories afterwards and nothing else
    has changed. *)
Lemma mkdir_fold_ok (p : string) (ds : list string) (fs : Fs.FS) :
  (forall d c, In d ds -> fs !! d <> Some (Fs.File c)) ->
  (forall d, In d ds -> Fs.short_name d = true) ->
  exists fs',
    fold_left (Fs.mkdir_step p) ds (Ok tt, fs) = (Ok tt, fs') /\
    (forall d, In d ds -> fs' !! d = Some Fs.Dir) /\
    (forall q, ~ In q ds -> fs' !! q = fs !! q).
Proof.
  intros Hds Hshort. revert fs Hds. induction ds as [|d ds IH]; intros fs Hds.
  - exists fs. repeat split; intros ? []; contradiction.
  - cbn [fold_left].
    assert (Hstep : exists fs1,
      Fs.mkdir_step p (Ok tt, fs) d = (Ok tt, fs1) /\ fs1 !! d = Some Fs.Dir /\
      (forall q, q <> d -> fs1 !! q = fs !! q)).
    { unfold Fs.mkdir_step. destruct (fs !! d) as [[c|]|] eqn:Hd.
      - exfalso. apply (Hds d c); [left; reflexivity | exact Hd].
      - exists fs. auto.
      - rewrite (Hshort d (or_introl eq_refl)).
        exists (<[d := Fs.Dir]> fs). split; [reflexivity|]. split.
        + apply lookup_insert_eq.
        + intros q Hq. apply lookup_insert_ne. congruence. }
    destruct Hstep as (fs1 & Hstep & Hd1 & Hother). rewrite Hstep.
    destruct (IH (fun d' Hin => Hshort d' (or_intror Hin)) fs1)
      as (fs' & Hfold & Hdirs & Hrest).
    { intros d' c Hin. destruct (decide (d' = d)) as [->|Hne]; [congruence|].
      rewrite Hother by exact Hne. apply Hds. right. exact Hin. }
    exists fs'. split; [exact Hfold|]. split.
    + intros d' [<-|Hin]; [|apply Hdirs; exact Hin].
      eapply mkdir_fold_preserves; eassumption.
    + intros q Hq. rewrite Hrest by (intros Hin; apply Hq; right; exact Hin).
      apply Hother. intros ->. apply Hq. left. reflexivity.
Qed.

Lemma of_segments_inj (a b : list string) :
  Forall (fun s => Path.plain s = true) a ->
  Forall (fun s => Path.plain s = true) b ->
  Path.of_segments a = Path.of_segments b -> a = b.
Proof.
  intros Ha Hb Heq.
  rewrite <- (normalizeSegments_of_segments false a Ha),
          <- (normalizeSegments_of_segments false b Hb), Heq.
  reflexivity.
Qed.

Lemma removelast_plain (segs : list string) :
  Forall (fun s => Path.plain s = true) segs ->
  Forall (fun s => Path.plain s = true) (removelast segs).
Proof.
  intros H. rewrite removelast_firstn_len. apply Forall_take. exact H.
Qed.

Lemma In_ancestors (dsegs : list string) (d : string) :
  Forall (fun s => Path.plain s = true) dsegs ->
  In d (Fs.ancestors_and_self (Path.of_segments dsegs)) <->
  exists n, n <= length dsegs /\ d = Path.of_segments (take n dsegs).
Proof.
  intros H. unfold Fs.ancestors_and_self, Path.segments.
  rewrite normalizeSegments_of_segments by exact H. rewrite in_map_iff.
  split.
  - intros (n & <- & Hn). apply in_seq in Hn. exists n. split; [lia|reflexivity].
  - intros (n & Hn & ->). exists n. split; [reflexivity|]. apply in_seq. lia.
Qed.

Lemma has_nul_append (a b : string) :
  Fs.has_nul (a +:+ b) = Fs.has_nul a || Fs.has_nul b.
Proof.
  induction a as [|c a IH]; [reflexivity|].
  rewrite append_cons. cbn [Fs.has_nul]. rewrite IH. apply orb_assoc.
Qed.

(** A path begins with the path of its directory. *)
Lemma dirname_prefix (segs : list string) :
  segs <> [] ->
  exists tail,
    Path.of_segments segs = Path.of_segments (removelast segs) +:+ tail.
Proof.
  intros Hne. destruct (exists_last Hne) as (l & x & ->).
  rewrite removelast_last. destruct l as [|y l].
  - exists x. reflexivity.
  - exists ("/" +:+ String.concat "/" [x]).
    apply of_segments_app; discriminate.
Qed.

Section Writing.

Variable cwd : string.
Variable baseDir : string.
Variable createPatch : string -> string -> string -> string -> string -> string.

(** X11: [write_file] never removes or alters an entry other than its
    target, whether it succeeds or fails. *)
Theorem write_file_frame (fs : Fs.FS) (filePath content q : string)
    (n : Fs.node) :
  fs !! q = Some n ->
  FsServer.normalizePath cwd baseDir filePath <> Ok q ->
  snd (FsServer.write_file cwd baseDir filePath content fs) !! q = Some n.
Proof.
  intros Hq Hne. unfold FsServer.write_file, Fs.try_catch, Fs.bind, Fs.lift.
  destruct (FsServer.normalizePath cwd baseDir filePath) as [p|m]; [|exact Hq].
  assert (Hpq : p <> q) by congruence.
  unfold Fs.existsSync.
  assert (Hmk : forall r1 fs1,
    (if negb (Fs.exists_in fs (Path.dirname p))
     then Fs.mkdirSync_recursive (Path.dirname p) else Fs.ret tt) fs = (r1, fs1)
    -> fs1 !! q = Some n).
  { intros r1 fs1. destruct (negb _).
    - unfold Fs.mkdirSync_recursive.
      destruct (Fs.refused "mkdir" (Path.dirname p));
        [intros [= _ <-]; exact Hq|].
      intros Hf. eapply mkdir_fold_preserves; eassumption.
    - intros [= _ <-]. exact Hq. }
  destruct ((if negb (Fs.exists_in fs (Path.dirname p))
             then Fs.mkdirSync_recursive (Path.dirname p) else Fs.ret tt) fs)
    as [r1 fs1] eqn:Hmade.
  specialize (Hmk r1 fs1 eq_refl).
  destruct r1 as [[]|m]; [|exact Hmk].
  unfold Fs.writeFileSync, Fs.ret.
  destruct (fs1 !! p) as [[old|]|]; cbn [snd fst]; try exact Hmk.
  - rewrite lookup_insert_ne by exact Hpq. exact Hmk.
  - destruct (Fs.refused "open" p); [exact Hmk|].
    destruct (fs1 !! Path.dirname p) as [[old|]|]; cbn [snd]; try exact Hmk.
    destruct (Fs.short_name p); cbn [snd]; [|exact Hmk].
    rewrite lookup_insert_ne by exact Hpq. exact Hmk.
Qed.

(** X12: [write_file] succeeds whenever the accepted target is not the
    root, is a path under which the host can make an entry (no NUL
    character, shorter than [PATH_MAX], no name longer than [NAME_MAX]),
    is not a directory, and no directory on the way to it is a regular
    file: the missing directories are made, the target holds the
    content, and its directory exists. *)
Theorem write_file_succeeds (fs : Fs.FS) (filePath content p : string) :
  Path.isAbsolute cwd = true ->
  FsServer.normalizePath cwd baseDir filePath = Ok p ->
  p <> "/" ->
  Fs.nameable p = true ->
  fs !! p <> Some Fs.Dir ->
  (forall d c, In d (Fs.ancestors_and_self (Path.dirname p)) ->
               fs !! d <> Some (Fs.File c)) ->
  exists fs',
    FsServer.write_file cwd baseDir filePath content fs
      = (Ok ("File '" +:+ filePath +:+ "' has been written successfully"), fs') /\
    fs' !! p = Some (Fs.File content) /\
    fs' !! Path.dirname p = Some Fs.Dir.
Proof.
  intros Hcwd Hp Hroot Hname Hnd Hanc.
  pose proof (accepted_segments cwd baseDir filePath p Hcwd Hp) as Hpe'.
  unfold Fs.nameable in Hname.
  apply andb_true_iff in Hname as [Hname Hall].
  apply andb_true_iff in Hname as [Hnul Hlong].
  apply negb_true_iff in Hnul. apply Nat.ltb_lt in Hlong.
  rewrite forallb_forall in Hall.
  set (segs := Path.segments p) in *.
  assert (Hsegs : Forall (fun s => Path.plain s = true) segs)
    by apply normalizeSegments_plain.
  assert (Hpe : p = Path.of_segments segs) by (symmetry; exact Hpe').
  assert (Hps : Path.segments p = segs) by reflexivity.
  assert (Hne : segs <> []) by (intros ->; apply Hroot; exact Hpe).
  set (dsegs := removelast segs).
  assert (Hdplain : Forall (fun s => Path.plain s = true) dsegs)
    by (apply removelast_plain; exact Hsegs).
  assert (Hdir : Path.dirname p = Path.of_segments dsegs)
    by (unfold Path.dirname; rewrite Hps; reflexivity).
  assert (Hlen : length dsegs < length segs).
  { unfold dsegs. rewrite removelast_firstn_len, length_take.
    destruct segs; [congruence|]. cbn. lia. }
  assert (Hself : In (Path.dirname p) (Fs.ancestors_and_self (Path.dirname p))).
  { rewrite Hdir. apply In_ancestors; [exact Hdplain|].
    exists (length dsegs). split; [lia|]. rewrite firstn_all. reflexivity. }
  assert (Hnot : ~ In p (Fs.ancestors_and_self (Path.dirname p))).
  { rewrite Hdir. intros Hin. apply In_ancestors in Hin as (k & Hk & Hpk);
      [|exact Hdplain].
    rewrite Hpe in Hpk. apply of_segments_inj in Hpk;
      [|exact Hsegs | apply Forall_take; exact Hdplain].
    apply (f_equal (@length string)) in Hpk. rewrite length_take in Hpk. lia. }
  assert (Hopen : Fs.refused "open" p = None).
  { unfold Fs.refused. rewrite Hnul.
    destruct (Nat.leb_spec Fs.PATH_MAX (String.length p)); [lia|reflexivity]. }
  assert (Hmkdir : Fs.refused "mkdir" (Path.dirname p) = None).
  { destruct (dirname_prefix segs Hne) as (tail & Htail).
    fold dsegs in Htail. rewrite <- Hpe, <- Hdir in Htail.
    unfold Fs.refused.
    assert (Hn : Fs.has_nul (Path.dirname p) = false).
    { rewrite Htail, has_nul_append in Hnul.
      apply orb_false_iff in Hnul as [Hn _]. exact Hn. }
    rewrite Hn.
    assert (String.length (Path.dirname p) <= String.length p)
      by (rewrite Htail at 2; rewrite length_append; lia).
    destruct (Nat.leb_spec Fs.PATH_MAX (String.length (Path.dirname p)));
      [lia|reflexivity]. }
  assert (Hshort : forall l : list string,
            Forall (fun s => Path.plain s = true) l ->
            (forall x, In x l -> In x segs) ->
            Fs.short_name (Path.of_segments l) = true).
  { intros l Hl Hin. unfold Fs.short_name, Path.segments.
    rewrite normalizeSegments_of_segments by exact Hl.
    destruct (last l) as [name|] eqn:Hlast; [|reflexivity].
    apply Hall. apply Hin. apply list_elem_of_In.
    apply last_Some_elem_of. exact Hlast. }
  assert (Hshort_p : Fs.short_name p = true).
  { rewrite Hpe. apply Hshort; [exact Hsegs | auto]. }
  assert (Hshort_d : forall d, In d (Fs.ancestors_and_self (Path.dirname p)) ->
                               Fs.short_name d = true).
  { intros d Hin. rewrite Hdir in Hin.
    apply In_ancestors in Hin as (k & Hk & ->); [|exact Hdplain].
    apply Hshort; [apply Forall_take; exact Hdplain|].
    intros x Hx. apply list_elem_of_In in Hx.
    apply elem_of_take in Hx as (i & Hi & _).
    unfold dsegs in Hi. rewrite removelast_firstn_len in Hi.
    apply lookup_take_Some in Hi as [Hi _].
    apply list_elem_of_In. eapply list_elem_of_lookup_2. exact Hi. }
  assert (Hmade : exists fs1,
    (if negb (Fs.exists_in fs (Path.dirname p))
     then Fs.mkdirSync_recursive (Path.dirname p) else Fs.ret tt) fs
      = (Ok tt, fs1) /\
    fs1 !! Path.dirname p = Some Fs.Dir /\ fs1 !! p = fs !! p).
  { unfold Fs.exists_in. destruct (fs !! Path.dirname p) as [[c|]|] eqn:Hd.
    - exfalso. apply (Hanc _ c Hself). exact Hd.
    - exists fs. auto.
    - destruct (mkdir_fold_ok (Path.dirname p)
                  (Fs.ancestors_and_self (Path.dirname p)) fs Hanc Hshort_d)
        as (fs1 & Hfold & Hdirs & Hrest).
      exists fs1. cbn [negb]. unfold Fs.mkdirSync_recursive. rewrite Hmkdir.
      split; [exact Hfold|]. split; [apply Hdirs; exact Hself|].
      apply Hrest. exact Hnot. }
  destruct Hmade as (fs1 & Hmade & Hd1 & Hp1).
  exists (<[p := Fs.File content]> fs1).
  split; [|split; [apply lookup_insert_eq|]].
  - unfold FsServer.write_file, Fs.try_catch, Fs.bind, Fs.lift.
    rewrite Hp. unfold Fs.existsSync. rewrite Hmade.
    unfold Fs.writeFileSync. rewrite Hp1, Hopen, Hd1, Hshort_p.
    destruct (fs !! p) as [[old|]|]; [reflexivity | congruence | reflexivity].
  - rewrite lookup_insert_ne; [exact Hd1|].
    intros Heq. apply Hnot.
    exact (eq_ind _ (fun x => In x (Fs.ancestors_and_self (Path.dirname p)))
             Hself _ (eq_sym Heq)).
Qed.

(** X13: [edit_file] changes at most the content of an existing regular
    file: every path names afterwards what it named before, except the
    accepted target when it was a regular file, which then holds the new
    content; no entry is created or removed. *)
Theorem edit_file_frame (fs : Fs.FS) (filePath newContent q : string) :
  snd (FsServer.edit_file cwd baseDir createPatch filePath newContent fs) !! q
    = fs !! q
  \/ (FsServer.normalizePath cwd baseDir filePath = Ok q /\
      (exists oldContent, fs !! q = Some (Fs.File oldContent)) /\
      snd (FsServer.edit_file cwd baseDir createPatch filePath newContent fs) !! q
        = Some (Fs.File newContent)).
Proof.
  unfold FsServer.edit_file, Fs.try_catch, Fs.bind, Fs.lift.
  destruct (FsServer.normalizePath cwd baseDir filePath) as [p|m] eqn:Hp;
    [|left; reflexivity].
  unfold Fs.existsSync, Fs.exists_in, Fs.readFileSync, Fs.writeFileSync.
  destruct (fs !! p) as [[old|]|] eqn:Hl; cbn [negb];
    repeat (rewrite Hl; cbn [negb]); try (left; reflexivity).
  cbn [snd]. destruct (decide (q = p)) as [->|Hne].
  - right. split; [reflexivity|]. split; [eauto|]. apply lookup_insert_eq.
  - left. apply lookup_insert_ne. congruence.
Qed.

(** X14: after [edit_file] has replaced the content of a file,
    [read_file] of the same path returns the new content. *)
Theorem edit_then_read (fs : Fs.FS) (filePath newContent oldContent p : string) :
  FsServer.normalizePath cwd baseDir filePath = Ok p ->
  fs !! p = Some (Fs.File oldContent) ->
  let fs' := snd (FsServer.edit_file cwd baseDir createPatch filePath
                    newContent fs) in
  FsServer.read_file cwd baseDir filePath fs' = (Ok newContent, fs').
Proof.
  intros Hp Hold fs'.
  assert (Hfs' : fs' !! p = Some (Fs.File newContent)).
  { unfold fs', FsServer.edit_file, Fs.try_catch, Fs.bind, Fs.lift.
    rewrite Hp. unfold Fs.existsSync, Fs.exists_in, Fs.readFileSync,
      Fs.writeFileSync.
    repeat (rewrite Hold; cbn [negb]). cbn [snd]. apply lookup_insert_eq. }
  unfold FsServer.read_file, Fs.try_catch, Fs.bind, Fs.lift.
  rewrite Hp. unfold Fs.existsSync, Fs.exists_in, Fs.statSync, Fs.readFileSync.
  repeat (rewrite Hfs'; cbn [negb Fs.isFile]). reflexivity.
Qed.

End Writing.

Lemma write_file_frame_witness :
  snd (FsServer.write_file "/" Sample.baseDir "docs/a.txt" "hello" Sample.fs)
    !! "/srv/app/notes.txt" = Some (Fs.File "first line").
Proof.
  apply (write_file_frame "/" Sample.baseDir Sample.fs "docs/a.txt" "hello"
           "/srv/app/notes.txt" (Fs.File "first line") eq_refl).
  vm_compute. discriminate.
Defined.

Lemma write_file_succeeds_witness :
  exists fs',
    FsServer.write_file "/" Sample.baseDir "docs/new/a.txt" "hello" Sample.fs
      = (Ok "File 'docs/new/a.txt' has been written successfully", fs') /\
    fs' !! "/srv/app/docs/new/a.txt" = Some (Fs.File "hello") /\
    fs' !! Path.dirname "/srv/app/docs/new/a.txt" = Some Fs.Dir.
Proof.
  apply (write_file_succeeds "/" Sample.baseDir Sample.fs "docs/new/a.txt"
           "hello" "/srv/app/docs/new/a.txt" eq_refl eq_refl).
  - discriminate.
  - reflexivity.
  - vm_compute. discriminate.
  - intros d c Hin. vm_compute in Hin.
    repeat (destruct Hin as [<-|Hin]; [vm_compute; discriminate|]).
    contradiction.
Defined.

Lemma edit_then_read_witness :
  FsServer.read_file "/" Sample.baseDir "notes.txt"
    (snd (FsServer.edit_file "/" Sample.baseDir Sample.createPatch "notes.txt"
            "second line" Sample.fs))
  = (Ok "second line",
     snd (FsServer.edit_file "/" Sample.baseDir Sample.createPatch "notes.txt"
            "second line" Sample.fs)).
Proof.
  apply (edit_then_read "/" Sample.baseDir Sample.createPatch Sample.fs
           "notes.txt" "second line" "first line" "/srv/app/notes.txt"
           eq_refl eq_refl).
Defined.

(** ** The shell server, continued *)

Lemma killed_deliver (t : Z) (st : proc) (ev : event) :
  killed (deliver t st ev)
  = killed st || (match ev with TimerFires => timer_pending st | _ => false end).
Proof.
  destruct ev as [d|d|code|m|]; cbn [deliver]; rewrite ?orb_false_r.
  - reflexivity.
  - reflexivity.
  - destruct (on_close_resolves code st) as [value ->]. cbn [resolve killed].
    unfold clear_timer. destruct (timeoutId st); reflexivity.
  - unfold on_error. cbn [resolve killed].
    unfold clear_timer. destruct (timeoutId st); reflexivity.
  - unfold fire_timer. destruct (timer_pending st); cbn.
    + apply eq_sym, orb_true_r.
    + apply eq_sym, orb_false_r.
Qed.

Lemma pending_deliver (t : Z) (st : proc) (ev : event) :
  promise_inv t st ->
  timer_pending (deliver t st ev) = true ->
  timer_pending st = true /\ child_ends ev = false /\ ev <> TimerFires.
Proof.
  intros Hinv. destruct ev as [d|d|code|m|]; cbn [deliver child_ends].
  - cbn. intros ->. repeat split. discriminate.
  - cbn. intros ->. repeat split. discriminate.
  - destruct (on_close_resolves code st) as [value ->]. cbn [resolve timer_pending].
    unfold clear_timer. destruct (timeoutId st) eqn:Hid; cbn; [discriminate|].
    intros Hp. destruct (inv_pending t st Hinv Hp) as (_ & Hid' & _). congruence.
  - unfold on_error. cbn [resolve timer_pending].
    unfold clear_timer. destruct (timeoutId st) eqn:Hid; cbn; [discriminate|].
    intros Hp. destruct (inv_pending t st Hinv Hp) as (_ & Hid' & _). congruence.
  - unfold fire_timer. destruct (timer_pending st) eqn:Hp; cbn; intros H;
      congruence.
Qed.

(** While the timer is pending, the child has neither closed nor
    failed. *)
Lemma pending_no_child_end (t : Z) (evs : list event) :
  timer_pending (run t evs) = true ->
  Forall (fun ev => child_ends ev = false) evs.
Proof.
  induction evs as [|ev evs IH] using rev_ind; intros Hp; [constructor|].
  rewrite run_snoc in Hp.
  apply pending_deliver in Hp as (Hp & Hev & _); [|apply promise_inv_run].
  apply Forall_app. split; [apply IH; exact Hp|]. constructor; [exact Hev|constructor].
Qed.

(** With the timeout enabled, as long as the child has neither closed
    nor failed the timer is pending or has killed the child. *)
Lemma pending_or_killed (t : Z) (evs : list event) :
  (0 < t)%Z -> Forall (fun ev => child_ends ev = false) evs ->
  timer_pending (run t evs) = true \/ killed (run t evs) = true.
Proof.
  intros Ht. induction evs as [|ev evs IH] using rev_ind; intros Hall.
  - left. unfold run, executor. cbn. apply Z.ltb_lt. exact Ht.
  - apply Forall_app in Hall as [Hall Hev]. inversion Hev as [|? ? Hev' _]; subst.
    rewrite run_snoc, killed_deliver.
    destruct (IH Hall) as [Hp|Hk].
    + destruct ev as [d|d|code|m|]; cbn [child_ends] in Hev'; try discriminate.
      * left. exact Hp.
      * left. exact Hp.
      * right. rewrite Hp. apply orb_true_r.
    + right. rewrite Hk. reflexivity.
Qed.

(** X15: [process.kill()] is called exactly when the timeout is
    enabled and the timer fires before any close or error event; the
    call then resolves with the timeout notice. *)
Theorem killed_iff_timed_out (t : Z) (evs : list event) :
  (killed (run t evs) = true <->
   (0 < t)%Z /\
   exists before after,
     evs = (before ++ TimerFires :: after)%list /\
     Forall (fun ev => child_ends ev = false) before) /\
  (killed (run t evs) = true ->
   settled (run t evs) = Some ("Command timed out after " +:+ pretty t +:+ "ms")).
Proof.
  assert (Hfire : forall l, timer_pending (run t l) = true ->
            settled (run t (l ++ [TimerFires])) = Some (timeout_message t)).
  { intros l Hp. rewrite run_snoc. cbn [deliver]. unfold fire_timer. rewrite Hp.
    destruct (inv_pending t _ (promise_inv_run t l) Hp) as (Hs & _ & _).
    unfold on_timeout. rewrite settled_resolve. cbn. rewrite Hs. reflexivity. }
  assert (Hleft : killed (run t evs) = true ->
            exists before after,
              evs = (before ++ TimerFires :: after)%list /\
              timer_pending (run t before) = true).
  { induction evs as [|ev evs IH] using rev_ind; [discriminate|].
    rewrite run_snoc, killed_deliver. intros Hk.
    apply orb_true_iff in Hk as [Hk|Hk].
    - destruct (IH Hk) as (before & after & -> & Hp).
      exists before, (after ++ [ev])%list. rewrite <- app_assoc. auto.
    - destruct ev; try discriminate. exists evs, []. auto. }
  split; [split|].
  - intros Hk. destruct (Hleft Hk) as (before & after & -> & Hp). split.
    + destruct (inv_pending t _ (promise_inv_run t before) Hp) as (_ & _ & Hlt).
      exact Hlt.
    + exists before, after. split; [reflexivity|].
      apply pending_no_child_end with (t := t). exact Hp.
  - intros (Ht & before & after & -> & Hall).
    replace (before ++ TimerFires :: after)%list
      with ((before ++ [TimerFires]) ++ after)%list
      by (rewrite <- app_assoc; reflexivity).
    assert (Hk : killed (run t (before ++ [TimerFires])) = true).
    { rewrite run_snoc, killed_deliver.
      destruct (pending_or_killed t before Ht Hall) as [-> | ->];
        [apply orb_true_r | reflexivity]. }
    clear Hleft Hfire. induction after as [|ev after IH] using rev_ind.
    + rewrite app_nil_r. exact Hk.
    + rewrite app_assoc, run_snoc, killed_deliver, IH. reflexivity.
  - intros Hk. destruct (Hleft Hk) as (before & after & -> & Hp).
    replace (before ++ TimerFires :: after)%list
      with ((before ++ [TimerFires]) ++ after)%list
      by (rewrite <- app_assoc; reflexivity).
    rewrite run_app. apply settled_fold. apply Hfire. exact Hp.
Qed.

Lemma killed_iff_timed_out_witness :
  settled (run 100 [StdoutData "partial"; TimerFires; Close None])
  = Some "Command timed out after 100ms".
Proof.
  apply (proj2 (killed_iff_timed_out 100
                  [StdoutData "partial"; TimerFires; Close None])).
  reflexivity.
Defined.

(** X16: when the child reports an error before anything resolved the
    call, the result is the spawn-failure message with the error's text,
    the timer is cancelled, and the child is not killed by it later. *)
Theorem error_event_result (t : Z) (evs more : list event) (message : string) :
  settled (run t evs) = None ->
  settled (run t (evs ++ [Error message]))
    = Some ("Failed to execute command: " +:+ message) /\
  timer_pending (run t (evs ++ [Error message])) = false /\
  killed (run t ((evs ++ [Error message]) ++ more)) = killed (run t evs) /\
  settled (run t ((evs ++ [Error message]) ++ more))
    = Some ("Failed to execute command: " +:+ message).
Proof.
  intros Hs.
  assert (H1 : settled (run t (evs ++ [Error message]))
               = Some ("Failed to execute command: " +:+ message)).
  { rewrite run_snoc. cbn [deliver]. unfold on_error.
    rewrite settled_resolve, settled_clear_timer, Hs. reflexivity. }
  assert (H2 : forall l, timer_pending (run t ((evs ++ [Error message]) ++ l))
                         = false).
  { intros l. destruct (timer_pending _) eqn:Hp; [|reflexivity].
    apply pending_no_child_end in Hp.
    apply Forall_app in Hp as [Hp _]. apply Forall_app in Hp as [_ Hp].
    inversion Hp; discriminate. }
  split; [exact H1|]. split; [rewrite <- (app_nil_r (evs ++ _)); apply H2|].
  split.
  - induction more as [|ev more IH] using rev_ind.
    + rewrite app_nil_r, run_snoc, killed_deliver. apply orb_false_r.
    + rewrite app_assoc, run_snoc, killed_deliver, IH.
      rewrite H2. destruct ev; apply orb_false_r.
  - rewrite run_app. apply settled_fold. exact H1.
Qed.

Lemma error_event_result_witness :
  settled (run 30000 ([] ++ [Error "spawn /bin/sh ENOENT"]))
  = Some "Failed to execute command: spawn /bin/sh ENOENT".
Proof.
  apply (error_event_result 30000 [] [] "spawn /bin/sh ENOENT"). reflexivity.
Defined.

(** X17: [get_env] reports a variable other than [PATH] as the
    process environment has it, an empty value included, and answers
    that it is not set exactly when the environment does not have it. *)
Theorem get_env_other (process_env : Env) (homeDir name : string) :
  name <> "PATH" ->
  ~ In name inherited_names ->
  get_env process_env homeDir name
  = match process_env !! name with
    | Some value => value
    | None => "Environment variable '" +:+ name +:+ "' is not set"
    end.
Proof.
  intros Hname _. unfold get_env, getShellEnv. cbv zeta.
  destruct (not_set _); [|reflexivity].
  rewrite lookup_insert_ne by congruence. reflexivity.
Qed.

Lemma get_env_other_witness :
  get_env (<["LANG" := ""]> ∅) Sample.homeDir "LANG" = "".
Proof.
  rewrite (get_env_other (<["LANG" := ""]> ∅) Sample.homeDir "LANG").
  - reflexivity.
  - discriminate.
  - vm_compute. intuition discriminate.
Defined.

(** X18: whatever [run_command] spawns gets the command text as given,
    a working directory that exists and begins with the base directory,
    the timeout asked for (30000 when omitted), and the environment of
    the server with a non-empty [PATH] and every other variable
    unchanged. *)
Theorem spawned_as_asked (process_cwd baseDir : string) (process_env : Env)
    (homeDir : string) (fs : Fs.FS) (command : string)
    (workingDir : option string) (timeout : option Z)
    (command' cwd : string) (env : Env) (t : Z) :
  run_command process_cwd baseDir process_env homeDir fs command workingDir
    timeout = Spawned command' cwd env t ->
  command' = command /\
  t = default 30000%Z timeout /\
  Str.startsWith cwd baseDir = true /\ Fs.exists_in fs cwd = true /\
  (exists value, env !! "PATH" = Some value /\ value <> "") /\
  (forall name, name <> "PATH" -> env !! name = process_env !! name).
Proof.
  unfold run_command. cbv zeta.
  destruct (Str.startsWith _ baseDir) eqn:Hpre; cbn [negb]; [|discriminate].
  destruct (Fs.exists_in fs _) eqn:Hex; cbn [negb]; [|discriminate].
  intros [= <- <- <- <-]. repeat split; try assumption.
  - unfold getShellEnv. destruct (process_env !! "PATH") as [[|c s]|] eqn:Hv;
      cbn [not_set Str.truthy negb].
    + exists (default_PATH homeDir). rewrite lookup_insert_eq.
      split; [reflexivity | apply default_PATH_not_empty].
    + exists (String c s). rewrite Hv. split; [reflexivity | discriminate].
    + exists (default_PATH homeDir). rewrite lookup_insert_eq.
      split; [reflexivity | apply default_PATH_not_empty].
  - intros name Hname. unfold getShellEnv. destruct (not_set _); [|reflexivity].
    apply lookup_insert_ne. congruence.
Qed.

Lemma spawned_as_asked_witness :
  Str.startsWith "/srv/app" Sample.baseDir = true /\
  exists value, getShellEnv ∅ Sample.homeDir !! "PATH" = Some value /\
                value <> "".
Proof.
  destruct (spawned_as_asked "/" Sample.baseDir ∅ Sample.homeDir Sample.fs "ls"
              None None "ls" "/srv/app" (getShellEnv ∅ Sample.homeDir) 30000
              eq_refl) as (_ & _ & Hpre & _ & Hpath & _).
  split; [exact Hpre | exact Hpath].
Defined.

(** ** The request of the paper server *)

Lemma string_or_not_empty (o : option string) (fallback : string) :
  fallback <> "" -> Arxiv.string_or o fallback <> "".
Proof.
  intros Hf. unfold Arxiv.string_or, Str.or_else.
  destruct o as [[|c s]|]; cbn; congruence.
Qed.

Lemma string_or_given (o : option string) (fallback given : string) :
  o = Some given -> given <> "" -> Arxiv.string_or o fallback = given.
Proof. intros -> Hg. destruct given; [congruence|reflexivity]. Qed.

Lemma string_or_default (o : option string) (fallback : string) :
  o = None \/ o = Some "" -> Arxiv.string_or o fallback = fallback.
Proof. intros [-> | ->]; reflexivity. Qed.

(** X19: the request sent to the Arxiv API, for an integer number of
    results in the safe range, is the fixed address followed by the
    query, the number of results in decimal, the sort field and the sort
    order; each of the four is the value given when that is not empty
    (not 0), and its default when the value is missing, empty or 0: the
    default query, 100, [submittedDate] and [descending].  So no request
    has an empty query or sort field or asks for 0 results. *)
Theorem request_url_defaults (options : Arxiv.FetchConfig) :
  exists query results by_field order,
    Arxiv.request_url options
    = "http://export.arxiv.org/api/query?search_query=" +:+ query
      +:+ "&max_results=" +:+ pretty (Arxiv.integer_value results)
      +:+ "&sortBy=" +:+ by_field +:+ "&sortOrder=" +:+ order /\
    query <> "" /\ Arxiv.integer_value results <> 0%Z /\
    by_field <> "" /\ order <> "" /\
    ((forall q, Arxiv.searchQuery options = Some q -> q <> "" -> query = q) /\
     (Arxiv.searchQuery options = None \/ Arxiv.searchQuery options = Some "" ->
      query = "cat:cs.AI+OR+cat:cs.CL+OR+cat:cs.LG+OR+cat:cs.NE")) /\
    ((forall n, Arxiv.maxResults options = Some n ->
                Arxiv.integer_value n <> 0%Z -> results = n) /\
     (Arxiv.maxResults options = None \/
      (exists n, Arxiv.maxResults options = Some n /\
                 Arxiv.integer_value n = 0%Z) ->
      Arxiv.integer_value results = 100%Z)) /\
    ((forall f, Arxiv.sortBy options = Some f -> f <> "" -> by_field = f) /\
     (Arxiv.sortBy options = None \/ Arxiv.sortBy options = Some "" ->
      by_field = "submittedDate")) /\
    ((forall o, Arxiv.sortOrder options = Some o -> o <> "" -> order = o) /\
     (Arxiv.sortOrder options = None \/ Arxiv.sortOrder options = Some "" ->
      order = "descending")).
Proof.
  eexists _, _, _, _. split; [reflexivity|].
  split; [apply string_or_not_empty; discriminate|].
  split.
  { unfold Arxiv.number_or, Arxiv.default_maxResults.
    destruct (Arxiv.maxResults options) as [n|]; [|discriminate].
    destruct (Z.eqb_spec (Arxiv.integer_value n) 0); [discriminate | assumption]. }
  split; [apply string_or_not_empty; discriminate|].
  split; [apply string_or_not_empty; discriminate|].
  split; [split; [intros q; apply string_or_given | apply string_or_default]|].
  split.
  { split.
    - intros n -> Hn. unfold Arxiv.number_or.
      destruct (Z.eqb_spec (Arxiv.integer_value n) 0); [congruence|reflexivity].
    - intros [-> | (n & -> & Hn)]; [reflexivity|].
      unfold Arxiv.number_or. rewrite Hn. reflexivity. }
  split; split;
    solve [intros f; apply string_or_given | apply string_or_default].
Qed.

Lemma request_url_defaults_witness :
  exists (query by_field order : string) (results : Arxiv.safe_integer),
    Arxiv.request_url
      (Arxiv.mkFetchConfig (Some "") (Some (Arxiv.mkSafeInteger 0 eq_refl))
         (Some "relevance") None None)
    = "http://export.arxiv.org/api/query?search_query=" +:+ query
      +:+ "&max_results=" +:+ pretty (Arxiv.integer_value results)
      +:+ "&sortBy=" +:+ by_field +:+ "&sortOrder=" +:+ order /\
    query = "cat:cs.AI+OR+cat:cs.CL+OR+cat:cs.LG+OR+cat:cs.NE" /\
    Arxiv.integer_value results = 100%Z /\
    by_field = "relevance" /\
    order = "descending".
Proof.
  destruct (request_url_defaults
              (Arxiv.mkFetchConfig (Some "")
                 (Some (Arxiv.mkSafeInteger 0 eq_refl))
                 (Some "relevance") None None))
    as (q & r & b & o & Hurl & _ & _ & _ & _ & (_ & Hq) & (_ & Hr) & (Hb & _)
        & (_ & Ho)).
  exists q, b, o, r. split; [exact Hurl|].
  split; [apply Hq; right; reflexivity|].
  split; [apply Hr; right; eexists; split; reflexivity|].
  split; [apply (Hb "relevance" eq_refl); discriminate|].
  apply Ho. left. reflexivity.
Defined.

(** ** Listing files *)

Lemma forEach_readonly {A S : Type} (items : list A) (s : S)
    (f : A -> S -> Fs.M S) (fs : Fs.FS) :
  (forall item s, snd (f item s fs) = fs) ->
  snd (Fs.forEach items s f fs) = fs.
Proof.
  intros Hf. revert s. induction items as [|item items IH]; intros s;
    cbn [Fs.forEach]; [reflexivity|].
  unfold Fs.bind. specialize (Hf item s) as Hitem.
  destruct (f item s fs) as [[s'|m] fs']; cbn [snd] in Hitem; subst fs'.
  - apply IH.
  - reflexivity.
Qed.

Section Listing.

Variable cwd : string.
Variable baseDir : string.
Variable minimatch : string -> string -> bool.

Lemma getAllFiles_readonly (frames : nat) (dir : string)
    (filesList : list string) (fs : Fs.FS) :
  snd (FsServer.getAllFiles cwd baseDir frames dir filesList fs) = fs.
Proof.
  revert dir filesList. induction frames as [|frames IH]; intros dir filesList;
    cbn [FsServer.getAllFiles]; [reflexivity|].
  unfold Fs.bind at 1. unfold Fs.readdirSync.
  destruct (fs !! dir) as [[c|]|]; try reflexivity.
  apply forEach_readonly. intros file acc.
  unfold Fs.bind, Fs.statSync.
  destruct (fs !! Path.join [dir; file]) as [[c|]|]; cbn [Fs.isDirectory];
    try reflexivity.
  apply IH.
Qed.

(** X20: [list_files] only reads: whatever its arguments and its
    answer, the filesystem is left as it was. *)
Theorem list_files_readonly (pattern : string) (directory : option string)
    (fs : Fs.FS) :
  snd (FsServer.list_files cwd baseDir minimatch pattern directory fs) = fs.
Proof.
  unfold FsServer.list_files, Fs.try_catch, Fs.bind at 1, Fs.lift.
  destruct (FsServer.normalizePath cwd baseDir (default "." directory))
    as [searchDir|m]; [|reflexivity].
  unfold Fs.bind at 1, Fs.existsSync.
  unfold Fs.bind at 1.
  assert (Hun : exists r, (if negb (Fs.exists_in fs searchDir) then Fs.ret true
            else (stat <- Fs.statSync searchDir ;;
                  Fs.ret (negb (Fs.isDirectory stat)))) fs = (r, fs)).
  { destruct (negb _); [eexists; reflexivity|].
    unfold Fs.bind, Fs.statSync. destruct (fs !! searchDir); eexists; reflexivity. }
  destruct Hun as [r ->]. destruct r as [[|]|m]; try reflexivity.
  unfold Fs.bind.
  pose proof (getAllFiles_readonly (S (Fs.depth fs)) searchDir [] fs) as Hro.
  destruct (FsServer.getAllFiles cwd baseDir (S (Fs.depth fs)) searchDir [] fs)
    as [[allFiles|m] fs']; cbn [snd] in Hro; subst fs'; [|reflexivity].
  destruct (length _ =? 0)%nat; reflexivity.
Qed.

(** X21: when the accepted search directory is missing or is a regular
    file, [list_files] answers that it does not exist or is not a
    directory. *)
Theorem list_files_unusable (pattern directory searchDir : string) (fs : Fs.FS) :
  FsServer.normalizePath cwd baseDir directory = Ok searchDir ->
  fs !! searchDir <> Some Fs.Dir ->
  FsServer.list_files cwd baseDir minimatch pattern (Some directory) fs
  = (Ok ("Error: Directory '" +:+ directory
         +:+ "' does not exist or is not a directory"), fs).
Proof.
  intros Hp Hnd. unfold FsServer.list_files, Fs.try_catch, Fs.bind, Fs.lift.
  change (default "." (Some directory)) with directory. rewrite Hp.
  unfold Fs.existsSync, Fs.exists_in, Fs.statSync.
  destruct (fs !! searchDir) as [[c|]|] eqn:Hl; cbn [negb];
    repeat (rewrite Hl; cbn [negb Fs.isDirectory]); try reflexivity.
  congruence.
Qed.

End Listing.

Lemma list_files_unusable_witness :
  FsServer.list_files "/" Sample.baseDir (fun _ _ => true) "*"
    (Some "notes.txt") Sample.fs
  = (Ok "Error: Directory 'notes.txt' does not exist or is not a directory",
     Sample.fs).
Proof.
  apply (list_files_unusable "/" Sample.baseDir (fun _ _ => true) "*"
           "notes.txt" "/srv/app/notes.txt" Sample.fs eq_refl).
  vm_compute. discriminate.
Defined.

Lemma depth_bound (fs : Fs.FS) (k : string) (n : Fs.node) :
  fs !! k = Some n -> length (Path.segments k) <= Fs.depth fs.
Proof.
  intros Hk. unfold Fs.depth. apply max_list_elem_of_le.
  apply list_elem_of_In, in_map_iff. exists (k, n). split; [reflexivity|].
  apply list_elem_of_In, elem_of_map_to_list. exact Hk.
Qed.

Lemma of_segments_not_empty (segs : list string) : Path.of_segments segs <> "".
Proof. unfold Path.of_segments. discriminate. Qed.

(** Joining a directory and the name of one of its entries gives the
    path of the entry. *)
Lemma join_entry (dsegs : list string) (name : string) :
  Forall (fun s => Path.plain s = true) dsegs ->
  Path.plain name = true ->
  Path.join [Path.of_segments dsegs; name] = Path.of_segments (dsegs ++ [name]).
Proof.
  intros Hd Hn. pose proof Hn as Hn'.
  apply plain_spec in Hn' as (Hns & Hne & _).
  unfold Path.join.
  rewrite filter_cons_True by apply of_segments_not_empty.
  rewrite filter_cons_True by exact Hne. rewrite filter_nil.
  change (String.concat "/" [Path.of_segments dsegs; name])
    with (Path.of_segments dsegs +:+ "/" +:+ name).
  assert (Hsegs : Path.normalizeSegments false
                    (Path.of_segments dsegs +:+ "/" +:+ name)
                  = (dsegs ++ [name])%list).
  { unfold Path.normalizeSegments. rewrite split_app, fold_left_app.
    pose proof (normalizeSegments_of_segments false dsegs Hd) as Hb.
    unfold Path.normalizeSegments in Hb.
    apply (f_equal (@rev string)) in Hb. rewrite rev_involutive in Hb.
    rewrite Hb, split_slashfree by exact Hns. cbn [fold_left].
    rewrite push_plain by exact Hn. cbn [rev]. rewrite rev_involutive.
    reflexivity. }
  unfold Path.normalize, Path.normalizeString.
  assert (Habs : Path.isAbsolute (Path.of_segments dsegs +:+ "/" +:+ name) = true).
  { unfold Path.of_segments. rewrite append_assoc. reflexivity. }
  assert (Hnon : String.eqb (Path.of_segments dsegs +:+ "/" +:+ name) "" = false).
  { unfold Path.of_segments. rewrite append_assoc. reflexivity. }
  assert (Htr : Path.hasTrailingSeparator
                  (Path.of_segments dsegs +:+ "/" +:+ name) = false).
  { unfold Path.hasTrailingSeparator.
    rewrite last_char_append by (destruct name; discriminate).
    rewrite last_char_append by exact Hne.
    apply (slashfree_no_trailing name Hns). }
  rewrite Hnon, Habs, Htr. cbn [negb]. rewrite Hsegs.
  assert (Hq : String.eqb (String.concat "/" (dsegs ++ [name])) "" = false).
  { apply String.eqb_neq. destruct dsegs as [|x dsegs]; [exact Hne|].
    inversion Hd as [|? ? Hx _]; subst. apply plain_spec in Hx as (_ & Hx & _).
    apply (concat_not_empty x _ Hx). }
  rewrite Hq. reflexivity.
Qed.

(** In a canonical filesystem an entry of a directory is the directory's
    path followed by one plain segment. *)
Lemma entry_canonical (fs : Fs.FS) (dsegs : list string) (k : string)
    (v : Fs.node) :
  Fs.canonical fs ->
  Forall (fun s => Path.plain s = true) dsegs ->
  fs !! k = Some v ->
  k <> Path.of_segments dsegs ->
  Path.dirname k = Path.of_segments dsegs ->
  exists name, Path.plain name = true /\
    Path.segments k = (dsegs ++ [name])%list /\
    k = Path.of_segments (dsegs ++ [name]).
Proof.
  intros Hcan Hd Hk Hne Hdir.
  pose proof (normalizeSegments_plain k) as Hplain. fold (Path.segments k) in Hplain.
  pose proof (Hcan k v Hk) as Hkc.
  unfold Path.dirname in Hdir.
  apply of_segments_inj in Hdir; [|apply removelast_plain; exact Hplain | exact Hd].
  destruct (Path.segments k) as [|x l] eqn:Hs.
  - cbn in Hdir. subst dsegs. congruence.
  - destruct (exists_last (l := x :: l)) as (l' & name & Hl); [discriminate|].
    rewrite Hl in Hdir, Hplain, Hkc. rewrite removelast_last in Hdir. subst l'.
    exists name. apply Forall_app in Hplain as [_ Hname].
    inversion Hname as [|? ? Hn _]. split; [exact Hn|].
    split; [exact Hl | symmetry; exact Hkc].
Qed.

Lemma names_spec (fs : Fs.FS) (dir name : string) :
  name ∈ omap (Fs.entry_name dir) (map fst (map_to_list fs)) <->
  exists k v, fs !! k = Some v /\ k <> dir /\ Path.dirname k = dir /\
              last (Path.segments k) = Some name.
Proof.
  rewrite list_elem_of_omap. unfold Fs.entry_name. split.
  - intros (k & Hk & Hname). apply list_elem_of_In, in_map_iff in Hk
      as ([k' v] & <- & Hkv). apply list_elem_of_In, elem_of_map_to_list in Hkv.
    cbn [fst] in *. destruct (decide _) as [[H1 H2]|]; [|discriminate]. eauto 8.
  - intros (k & v & Hk & H1 & H2 & Hname). exists k. split.
    + apply list_elem_of_In, in_map_iff. exists (k, v). split; [reflexivity|].
      apply list_elem_of_In, elem_of_map_to_list. exact Hk.
    + destruct (decide _) as [|Hn]; [exact Hname|]. exfalso. apply Hn. auto.
Qed.

Lemma NoDup_omap_inj {A B : Type} (f : A -> option B) (l : list A) :
  NoDup l ->
  (forall x y z, x ∈ l -> y ∈ l -> f x = Some z -> f y = Some z -> x = y) ->
  NoDup (omap f l).
Proof.
  intros Hnd. induction Hnd as [|x l Hx Hnd IH]; intros Hinj; [constructor|].
  assert (Hrest : NoDup (omap f l)).
  { apply IH. intros a b z Ha Hb. apply Hinj; apply list_elem_of_further; assumption. }
  change (omap f (x :: l))
    with (match f x with Some z => z :: omap f l | None => omap f l end).
  destruct (f x) as [z|] eqn:Hfx; [|exact Hrest].
  constructor; [|exact Hrest].
  intros Hz. apply list_elem_of_omap in Hz as (y & Hy & Hfy).
  apply Hx. rewrite (Hinj x y z (list_elem_of_here _ _)
                       (list_elem_of_further _ _ _ Hy) Hfx Hfy).
  exact Hy.
Qed.

(** [readdirSync] lists every entry of a directory once. *)
Lemma names_NoDup (fs : Fs.FS) (dsegs : list string) :
  Fs.canonical fs ->
  Forall (fun s => Path.plain s = true) dsegs ->
  NoDup (omap (Fs.entry_name (Path.of_segments dsegs))
           (map fst (map_to_list fs))).
Proof.
  intros Hcan Hd. apply NoDup_omap_inj.
  - change (map fst (map_to_list fs)) with ((map_to_list fs).*1).
    apply NoDup_fst_map_to_list.
  - assert (Hkey : forall k z, k ∈ map fst (map_to_list fs) ->
                Fs.entry_name (Path.of_segments dsegs) k = Some z ->
                k = Path.of_segments (dsegs ++ [z])).
    { intros k z Hk Hz. apply list_elem_of_In, in_map_iff in Hk
        as ([k' v] & <- & Hkv). apply list_elem_of_In, elem_of_map_to_list in Hkv.
      cbn [fst] in *. unfold Fs.entry_name in Hz.
      destruct (decide _) as [[Hne Hdn]|]; [|discriminate].
      destruct (entry_canonical fs dsegs k' v Hcan Hd Hkv Hne Hdn)
        as (name & _ & Hsegs & Hkeq).
      rewrite Hsegs, last_snoc in Hz. injection Hz as <-. exact Hkeq. }
    intros x y z Hx Hy Hfx Hfy.
    rewrite (Hkey x z Hx Hfx), (Hkey y z Hy Hfy). reflexivity.
Qed.

Lemma elem_of_map_iff {A B : Type} (g : A -> B) (l : list A) (b : B) :
  b ∈ map g l <-> exists a, a ∈ l /\ b = g a.
Proof.
  rewrite list_elem_of_In, in_map_iff. split.
  - intros (a & <- & Ha). exists a. split; [apply list_elem_of_In; exact Ha|reflexivity].
  - intros (a & Ha & ->). exists a. split; [reflexivity|apply list_elem_of_In; exact Ha].
Qed.

(** A [forEach] whose callback appends to the list appends what each
    item contributes, once: [g] is what is written for a key, and no key
    comes from two items. *)
Lemma forEach_collect {A : Type} (g : string -> string) (items : list A)
    (f : A -> list string -> Fs.M (list string)) (fs : Fs.FS)
    (P : A -> string -> Prop) :
  NoDup items ->
  (forall i j k, i ∈ items -> j ∈ items -> P i k -> P j k -> i = j) ->
  (forall item, item ∈ items -> forall acc, exists keys,
      f item acc fs = (Ok (acc ++ map g keys)%list, fs) /\
      NoDup keys /\
      forall k, k ∈ keys <-> P item k) ->
  forall acc, exists keys,
    Fs.forEach items acc f fs = (Ok (acc ++ map g keys)%list, fs) /\
    NoDup keys /\
    forall k, k ∈ keys <-> exists item, item ∈ items /\ P item k.
Proof.
  intros Hnd. induction Hnd as [|item items Hitem Hnd IH]; intros Hone Hf acc.
  - exists []. cbn [map]. rewrite app_nil_r. split; [reflexivity|].
    split; [constructor|].
    intros k. split; [intros H; inversion H|].
    intros (item & H & _). inversion H.
  - destruct (Hf item (list_elem_of_here _ _) acc) as (keys1 & Hrun1 & Hnd1 & Hin1).
    destruct (IH (fun i j k Hi Hj => Hone i j k (list_elem_of_further _ _ _ Hi)
                                       (list_elem_of_further _ _ _ Hj))
                 (fun i Hi => Hf i (list_elem_of_further _ _ _ Hi))
                 (acc ++ map g keys1)%list) as (keys2 & Hrun2 & Hnd2 & Hin2).
    exists (keys1 ++ keys2)%list. split; [|split].
    + cbn [Fs.forEach]. unfold Fs.bind. rewrite Hrun1, Hrun2, map_app, app_assoc.
      reflexivity.
    + apply NoDup_app. split; [exact Hnd1|]. split; [|exact Hnd2].
      intros k Hk1 Hk2. apply Hin1 in Hk1. apply Hin2 in Hk2 as (i & Hi & HP).
      apply Hitem.
      rewrite (Hone item i k (list_elem_of_here _ _)
                 (list_elem_of_further _ _ _ Hi) Hk1 HP).
      exact Hi.
    + intros k. rewrite elem_of_app, Hin1, Hin2. split.
      * intros [H|(i & Hi & H)].
        -- exists item. split; [apply list_elem_of_here | exact H].
        -- exists i. split; [apply list_elem_of_further; exact Hi | exact H].
      * intros (i & Hi & H). apply elem_of_cons in Hi as [->|Hi]; eauto.
Qed.

Lemma segments_of_segments (segs : list string) :
  Forall (fun s => Path.plain s = true) segs ->
  Path.segments (Path.of_segments segs) = segs.
Proof. apply normalizeSegments_of_segments. Qed.

Lemma segments_plain (p : string) :
  Forall (fun s => Path.plain s = true) (Path.segments p).
Proof. apply normalizeSegments_plain. Qed.

(** What is reached through entries of directories lies inside. *)
Lemma below_inside (fs : Fs.FS) (dir k : string) :
  Fs.canonical fs ->
  Fs.below fs dir k ->
  Path.of_segments (Path.segments dir) = dir ->
  Fs.inside fs dir k.
Proof.
  intros Hcan Hbelow. induction Hbelow as
    [dir k [v Hk] Hne Hdn | dir d k Hd Hne Hdn Hbelow IH]; intros Hdir.
  - rewrite <- Hdir in Hne, Hdn.
    destruct (entry_canonical fs _ k v Hcan (segments_plain dir) Hk Hne Hdn)
      as (name & Hplain & Hsegs & _).
    exists [name]. split; [discriminate|]. split; [exact Hsegs|].
    intros n Hn. cbn in Hn. lia.
  - rewrite <- Hdir in Hne, Hdn.
    destruct (entry_canonical fs _ d _ Hcan (segments_plain dir) Hd Hne Hdn)
      as (name & Hplain & Hsegs & Hdeq).
    destruct (IH (Hcan d _ Hd)) as (rest & Hrne & Hk & Hmid).
    exists (name :: rest). split; [discriminate|]. split.
    + rewrite Hk, Hsegs, <- app_assoc. reflexivity.
    + intros n Hn. cbn [length] in Hn. destruct n as [|m]; [lia|].
      cbn [take]. destruct m as [|m].
      * rewrite take_0, <- Hdeq. exact Hd.
      * specialize (Hmid (S m) ltac:(lia)). rewrite Hsegs, <- app_assoc in Hmid.
        exact Hmid.
Qed.

Section ListingAll.

Variable cwd : string.
Variable baseDir : string.
Variable minimatch : string -> string -> bool.

(** With room on the stack for the nesting that is left, [getAllFiles]
    appends the relative path of each regular file reached from the
    directory, once per file, and leaves the filesystem as it was. *)
Lemma getAllFiles_spec (fs : Fs.FS) (frames : nat) :
  Fs.canonical fs ->
  forall (dsegs : list string) (acc : list string),
  Forall (fun s => Path.plain s = true) dsegs ->
  fs !! Path.of_segments dsegs = Some Fs.Dir ->
  Fs.depth fs < length dsegs + frames ->
  exists keys,
    FsServer.getAllFiles cwd baseDir frames (Path.of_segments dsegs) acc fs
      = (Ok (acc ++ map (Path.relative cwd baseDir) keys)%list, fs) /\
    NoDup keys /\
    forall k, k ∈ keys <->
      exists c, fs !! k = Some (Fs.File c) /\
                Fs.below fs (Path.of_segments dsegs) k.
Proof.
  intros Hcan. induction frames as [|frames IH]; intros dsegs acc Hd Hdir Hdepth.
  - pose proof (depth_bound fs _ _ Hdir) as Hb. unfold Path.segments in Hb.
    rewrite normalizeSegments_of_segments in Hb by exact Hd. lia.
  - set (dir := Path.of_segments dsegs) in *.
    cbn [FsServer.getAllFiles]. unfold Fs.bind at 1, Fs.readdirSync.
    rewrite Hdir.
    set (P := fun (name k' : string) =>
      let k := Path.of_segments (dsegs ++ [name]) in
      (exists c, fs !! k = Some (Fs.File c) /\ k' = k)
      \/ (fs !! k = Some Fs.Dir /\
          exists c, fs !! k' = Some (Fs.File c) /\ Fs.below fs k k')).
    assert (Hnames : forall name,
              name ∈ omap (Fs.entry_name dir) (map fst (map_to_list fs)) ->
              exists k v, fs !! k = Some v /\ k <> dir /\ Path.dirname k = dir /\
                          Path.plain name = true /\
                          k = Path.of_segments (dsegs ++ [name])).
    { intros name Hname. apply names_spec in Hname
        as (k & v & Hk & Hkne & Hkdir & Hlast).
      destruct (entry_canonical fs dsegs k v Hcan Hd Hk Hkne Hkdir)
        as (name' & Hplain & Hsegs & Hkeq).
      rewrite Hsegs, last_snoc in Hlast. injection Hlast as ->. eauto 8. }
    assert (Hsegs_of : forall name k', Path.plain name = true -> P name k' ->
              exists rest, Path.segments k' = (dsegs ++ name :: rest)%list).
    { intros name k' Hplain HP.
      assert (Hall : Forall (fun s => Path.plain s = true) (dsegs ++ [name]))
        by (apply Forall_app; split; [exact Hd | repeat constructor; exact Hplain]).
      unfold P in HP. cbv zeta in HP.
      destruct HP as [(c & _ & ->)|(_ & c & _ & Hbelow)].
      - exists []. apply segments_of_segments. exact Hall.
      - apply below_inside in Hbelow as (rest & _ & Hs & _); [|exact Hcan|].
        + exists rest. rewrite Hs, segments_of_segments, <- app_assoc by exact Hall.
          reflexivity.
        + rewrite segments_of_segments by exact Hall. reflexivity. }
    destruct (forEach_collect (Path.relative cwd baseDir)
                (omap (Fs.entry_name dir) (map fst (map_to_list fs)))
                (fun file filesList =>
                   stat <- Fs.statSync (Path.join [dir; file]) ;;
                   if Fs.isDirectory stat
                   then FsServer.getAllFiles cwd baseDir frames
                          (Path.join [dir; file]) filesList
                   else Fs.ret (filesList
                                ++ [Path.relative cwd baseDir
                                      (Path.join [dir; file])])%list)
                fs P) with (acc := acc) as (keys & Hrun & Hnd & Hkeys).
    { apply names_NoDup; assumption. }
    { intros i j k Hi Hj HPi HPj.
      destruct (Hnames i Hi) as (_ & _ & _ & _ & _ & Hpi & _).
      destruct (Hnames j Hj) as (_ & _ & _ & _ & _ & Hpj & _).
      destruct (Hsegs_of i k Hpi HPi) as (ri & Hri).
      destruct (Hsegs_of j k Hpj HPj) as (rj & Hrj).
      rewrite Hri in Hrj. apply app_inv_head in Hrj. congruence. }
    { intros name Hname acc'.
      destruct (Hnames name Hname) as (k & v & Hk & Hkne & Hkdir & Hplain & Hkeq).
      unfold dir. rewrite (join_entry dsegs name Hd Hplain), <- Hkeq.
      unfold Fs.bind, Fs.statSync. rewrite Hk. unfold P. cbv zeta.
      rewrite <- Hkeq. destruct v as [c|]; cbn [Fs.isDirectory].
      - exists [k]. split; [reflexivity|]. split; [apply NoDup_singleton|].
        intros k'. rewrite list_elem_of_singleton. split.
        + intros ->. left. eauto.
        + intros [(c' & _ & ->)|[Hdir' _]]; [reflexivity | congruence].
      - destruct (IH (dsegs ++ [name])%list acc') as (keys & Hrun & Hnd & Hkeys).
        + apply Forall_app. split; [exact Hd|]. constructor; [exact Hplain|constructor].
        + rewrite <- Hkeq. exact Hk.
        + rewrite length_app. cbn [length]. lia.
        + rewrite <- Hkeq in Hrun, Hkeys. exists keys. split; [exact Hrun|].
          split; [exact Hnd|].
          intros k'. rewrite Hkeys. split.
          * intros H. right. split; [exact Hk | exact H].
          * intros [(c' & Hc & _)|[_ H]]; [congruence | exact H]. }
    exists keys. split; [exact Hrun|]. split; [exact Hnd|].
    intros k'. rewrite Hkeys. split.
    + intros (name & Hname & HP).
      destruct (Hnames name Hname) as (k & v & Hk & Hkne & Hkdir & Hplain & Hkeq).
      unfold P in HP. cbv zeta in HP. rewrite <- Hkeq in HP.
      destruct HP as [(c & Hc & ->)|(Hkd & c & Hk' & Hbelow)].
      * exists c. split; [exact Hc|].
        apply Fs.below_entry; [eauto | exact Hkne | exact Hkdir].
      * exists c. split; [exact Hk'|].
        eapply Fs.below_deeper; eassumption.
    + intros (c & Hk' & Hbelow).
      inversion Hbelow as [? ? [v Hv] Hne Hdn | ? d ? Hdd Hne Hdn Hb]; subst.
      * rewrite Hk' in Hv. injection Hv as <-.
        destruct (entry_canonical fs dsegs k' _ Hcan Hd Hk' Hne Hdn)
          as (name & Hplain & Hsegs & Hkeq).
        exists name. split.
        -- apply names_spec. exists k', (Fs.File c).
           repeat split; try assumption. rewrite Hsegs. apply last_snoc.
        -- unfold P. cbv zeta. rewrite <- Hkeq. left. eauto.
      * destruct (entry_canonical fs dsegs d _ Hcan Hd Hdd Hne Hdn)
          as (name & Hplain & Hsegs & Hkeq).
        exists name. split.
        -- apply names_spec. exists d, Fs.Dir.
           repeat split; try assumption. rewrite Hsegs. apply last_snoc.
        -- unfold P. cbv zeta. rewrite <- Hkeq. right. eauto 6.
Qed.

End ListingAll.

(** What lies inside is reached through entries of directories. *)
Lemma inside_below (fs : Fs.FS) (k : string) (v : Fs.node) :
  Fs.canonical fs ->
  fs !! k = Some v ->
  forall dir,
  Path.of_segments (Path.segments dir) = dir ->
  Fs.inside fs dir k ->
  Fs.below fs dir k.
Proof.
  intros Hcan Hk dir Hdir (rest & Hrne & Hsegs & Hmid).
  revert dir Hdir Hsegs Hmid.
  induction rest as [|x rest IH]; intros dir Hdir Hsegs Hmid; [congruence|].
  pose proof (segments_plain k) as Hkplain. rewrite Hsegs in Hkplain.
  apply Forall_app in Hkplain as [Hdplain Hrplain].
  inversion Hrplain as [|? ? Hx Hrest]; subst.
  assert (Hchild : Forall (fun s => Path.plain s = true)
                     (Path.segments dir ++ [x])).
  { apply Forall_app. split; [exact Hdplain|]. constructor; [exact Hx|constructor]. }
  set (d := Path.of_segments (Path.segments dir ++ [x])).
  assert (Hdsegs : Path.segments d = (Path.segments dir ++ [x])%list)
    by (apply segments_of_segments; exact Hchild).
  assert (Hdne : d <> dir).
  { intros Heq. apply (f_equal Path.segments) in Heq. rewrite Hdsegs in Heq.
    apply (f_equal (@length string)) in Heq. rewrite length_app in Heq.
    cbn in Heq. lia. }
  assert (Hddir : Path.dirname d = dir).
  { unfold Path.dirname. rewrite Hdsegs, removelast_last. exact Hdir. }
  destruct rest as [|y rest].
  - assert (Hkd : k = d).
    { rewrite <- (Hcan k v Hk), Hsegs. reflexivity. }
    rewrite Hkd in *. apply Fs.below_entry; [eauto | exact Hdne | exact Hddir].
  - assert (Hd : fs !! d = Some Fs.Dir).
    { apply (Hmid 1). cbn. lia. }
    apply Fs.below_deeper with (d := d); [exact Hd | exact Hdne | exact Hddir|].
    apply IH.
    + discriminate.
    + unfold d. rewrite segments_of_segments by exact Hchild. reflexivity.
    + rewrite Hdsegs, Hsegs, <- app_assoc. reflexivity.
    + intros n Hn. rewrite Hdsegs, <- app_assoc.
      apply (Hmid (S n)). cbn [length] in *. lia.
Qed.

Lemma canonical_sample : Fs.canonical Sample.fs.
Proof.
  intros k n Hk.
  assert (H : map_Forall (fun k (_ : Fs.node) =>
                            Path.of_segments (Path.segments k) = k) Sample.fs).
  { apply (bool_decide_unpack _). vm_compute. exact I. }
  exact (H k n Hk).
Qed.

Section ListingSpec.

Variable cwd : string.
Variable baseDir : string.
Variable minimatch : string -> string -> bool.

(** What [getAllFiles] finds from an accepted search directory: each
    regular file inside it, once. *)
Lemma found_keys (directory searchDir : string) (fs : Fs.FS) :
  Fs.canonical fs ->
  Path.isAbsolute cwd = true ->
  FsServer.normalizePath cwd baseDir directory = Ok searchDir ->
  fs !! searchDir = Some Fs.Dir ->
  exists found,
    FsServer.getAllFiles cwd baseDir (S (Fs.depth fs)) searchDir [] fs
      = (Ok (map (Path.relative cwd baseDir) found), fs) /\
    NoDup found /\
    forall k, k ∈ found <->
      exists c, fs !! k = Some (Fs.File c) /\ Fs.inside fs searchDir k.
Proof.
  intros Hcan Hcwd Hp Hdir.
  pose proof (accepted_segments cwd baseDir directory searchDir Hcwd Hp) as Hse.
  destruct (getAllFiles_spec cwd baseDir fs (S (Fs.depth fs)) Hcan
              (Path.segments searchDir) [] (segments_plain searchDir)
              ltac:(rewrite Hse; exact Hdir) ltac:(lia))
    as (found & Hrun & Hnd & Hout).
  rewrite Hse in Hrun, Hout. cbn [app] in Hrun.
  exists found. split; [exact Hrun|]. split; [exact Hnd|].
  intros k. rewrite Hout. split.
  - intros (c & Hk & Hbelow). exists c. split; [exact Hk|].
    apply below_inside; assumption.
  - intros (c & Hk & Hin). exists c. split; [exact Hk|].
    eapply inside_below; eassumption.
Qed.

(** The paths it writes for them. *)
Lemma found_inside (directory searchDir : string) (fs : Fs.FS) :
  Fs.canonical fs ->
  Path.isAbsolute cwd = true ->
  FsServer.normalizePath cwd baseDir directory = Ok searchDir ->
  fs !! searchDir = Some Fs.Dir ->
  exists allFiles,
    FsServer.getAllFiles cwd baseDir (S (Fs.depth fs)) searchDir [] fs
      = (Ok allFiles, fs) /\
    forall rel, rel ∈ allFiles <->
      exists k c, fs !! k = Some (Fs.File c) /\ Fs.inside fs searchDir k /\
                  rel = Path.relative cwd baseDir k.
Proof.
  intros Hcan Hcwd Hp Hdir.
  destruct (found_keys directory searchDir fs Hcan Hcwd Hp Hdir)
    as (found & Hrun & _ & Hfound).
  exists (map (Path.relative cwd baseDir) found). split; [exact Hrun|].
  intros rel. rewrite elem_of_map_iff. split.
  - intros (k & Hk & ->). apply Hfound in Hk as (c & Hk & Hin). eauto 6.
  - intros (k & c & Hk & Hin & ->). exists k. split; [|reflexivity].
    apply Hfound. eauto.
Qed.

(** The answer of [list_files] once the files are found. *)
Lemma list_files_answer (pattern directory searchDir : string)
    (allFiles : list string) (fs : Fs.FS) :
  FsServer.normalizePath cwd baseDir directory = Ok searchDir ->
  fs !! searchDir = Some Fs.Dir ->
  FsServer.getAllFiles cwd baseDir (S (Fs.depth fs)) searchDir [] fs
    = (Ok allFiles, fs) ->
  FsServer.list_files cwd baseDir minimatch pattern (Some directory) fs
  = (Ok match List.filter (fun file => minimatch file pattern) allFiles with
        | [] => "No files matching pattern '" +:+ pattern
                +:+ "' found in '" +:+ directory +:+ "'"
        | matchingFiles => String.concat Str.nl matchingFiles
        end, fs).
Proof.
  intros Hp Hdir Hrun.
  unfold FsServer.list_files, Fs.try_catch, Fs.bind, Fs.lift.
  change (default "." (Some directory)) with directory. rewrite Hp.
  unfold Fs.existsSync, Fs.exists_in, Fs.statSync.
  repeat (rewrite Hdir; cbn [negb Fs.isDirectory]).
  unfold Fs.ret at 1 2. cbn [negb]. rewrite Hrun.
  destruct (List.filter _ allFiles); reflexivity.
Qed.

(** X22: in a canonical filesystem, [list_files] on an accepted search
    directory that is a directory finds every regular file inside it,
    each once, and nothing else: a file is found exactly when its
    segments continue those of the search directory through directories
    only.  The answer is, for the found files in the order they are met,
    the path of each relative to the base directory when it matches the
    pattern, one line per file, or the no-match message when none
    matches; the filesystem is left as it was. *)
Theorem list_files_spec (pattern directory searchDir : string) (fs : Fs.FS) :
  Fs.canonical fs ->
  Path.isAbsolute cwd = true ->
  FsServer.normalizePath cwd baseDir directory = Ok searchDir ->
  fs !! searchDir = Some Fs.Dir ->
  exists found,
    NoDup found /\
    (forall k, k ∈ found <->
       exists c, fs !! k = Some (Fs.File c) /\ Fs.inside fs searchDir k) /\
    FsServer.list_files cwd baseDir minimatch pattern (Some directory) fs
    = (Ok match List.filter (fun file => minimatch file pattern)
                  (map (Path.relative cwd baseDir) found) with
          | [] => "No files matching pattern '" +:+ pattern
                  +:+ "' found in '" +:+ directory +:+ "'"
          | matchingFiles => String.concat Str.nl matchingFiles
          end, fs).
Proof.
  intros Hcan Hcwd Hp Hdir.
  destruct (found_keys directory searchDir fs Hcan Hcwd Hp Hdir)
    as (found & Hrun & Hnd & Hfound).
  exists found. split; [exact Hnd|]. split; [exact Hfound|].
  apply (list_files_answer pattern directory searchDir _ fs Hp Hdir Hrun).
Qed.

End ListingSpec.

Lemma list_files_spec_witness :
  FsServer.list_files "/" Sample.baseDir (fun _ _ => true) "*" (Some ".")
    Sample.fs
  = (Ok "notes.txt", Sample.fs) /\
  exists found,
    NoDup found /\
    (forall k, k ∈ found <->
       exists c, Sample.fs !! k = Some (Fs.File c) /\
                 Fs.inside Sample.fs "/srv/app" k) /\
    FsServer.list_files "/" Sample.baseDir (fun _ _ => true) "*" (Some ".")
      Sample.fs
    = (Ok match List.filter (fun _ : string => true)
                  (map (Path.relative "/" Sample.baseDir) found) with
          | [] => "No files matching pattern '" +:+ "*"
                  +:+ "' found in '" +:+ "." +:+ "'"
          | matchingFiles => String.concat Str.nl matchingFiles
          end, Sample.fs).
Proof.
  split; [vm_compute; reflexivity|].
  exact (list_files_spec "/" Sample.baseDir (fun _ _ => true) "*" "."
           "/srv/app" Sample.fs canonical_sample eq_refl eq_refl eq_refl).
Defined.

Lemma resolve_single (cwd : string) (segs : list string) :
  Forall (fun s => Path.plain s = true) segs ->
  Path.resolve cwd [Path.of_segments segs] = Path.of_segments segs.
Proof.
  intros H. unfold Path.resolve. cbn [rev app Path.resolve_loop].
  change (String.eqb (Path.of_segments segs) "") with false.
  change (Path.isAbsolute (Path.of_segments segs)) with true.
  cbn [negb]. unfold Path.normalizeString, Path.normalizeSegments.
  rewrite split_app, fold_left_app.
  pose proof (normalizeSegments_of_segments false segs H) as Hn.
  unfold Path.normalizeSegments in Hn.
  apply (f_equal (@rev string)) in Hn. rewrite rev_involutive in Hn.
  rewrite Hn.
  change (fold_left (Path.push_segment false) (Str.split Path.slash "")
            (rev segs)) with (rev segs).
  rewrite rev_involutive. reflexivity.
Qed.

Lemma strip_common_app (b r : list string) :
  Path.strip_common b (b ++ r) = ([], r).
Proof.
  induction b as [|x b IH]; [destruct r; reflexivity|].
  cbn [app Path.strip_common]. rewrite String.eqb_refl. exact IH.
Qed.

(** The path of something inside a directory, taken relative to that
    directory, is what its segments add. *)
Lemma relative_inside (cwd : string) (bsegs r : list string) :
  Forall (fun s => Path.plain s = true) bsegs ->
  Forall (fun s => Path.plain s = true) r ->
  r <> [] ->
  Path.relative cwd (Path.of_segments bsegs) (Path.of_segments (bsegs ++ r))
  = String.concat "/" r.
Proof.
  intros Hb Hr Hne.
  assert (Hall : Forall (fun s => Path.plain s = true) (bsegs ++ r))
    by (apply Forall_app; split; assumption).
  assert (Hdiff : String.eqb (Path.of_segments bsegs)
                    (Path.of_segments (bsegs ++ r)) = false).
  { apply String.eqb_neq. intros Heq. apply of_segments_inj in Heq; try assumption.
    apply (f_equal (@length string)) in Heq. rewrite length_app in Heq.
    destruct r; [congruence|]. cbn in Heq. lia. }
  unfold Path.relative. rewrite Hdiff, !resolve_single, Hdiff by assumption.
  rewrite !segments_of_segments by assumption.
  rewrite strip_common_app. reflexivity.
Qed.

Section ListingRelative.

Variable cwd : string.
Variable minimatch : string -> string -> bool.

(** X23: when the search directory is the base directory or lies under
    it through whole segments, the paths [list_files] finds are written
    relative to the base directory: the segments between the base
    directory and the file, joined with ["/"], with no [".."] and no
    leading separator. *)
Theorem list_files_relative (pattern directory searchDir : string)
    (bsegs more : list string) (fs : Fs.FS) :
  Fs.canonical fs ->
  Path.isAbsolute cwd = true ->
  Forall (fun s => Path.plain s = true) bsegs ->
  FsServer.normalizePath cwd (Path.of_segments bsegs) directory = Ok searchDir ->
  Path.segments searchDir = (bsegs ++ more)%list ->
  fs !! searchDir = Some Fs.Dir ->
  exists allFiles,
    (forall rel, rel ∈ allFiles <->
       exists rest c,
         rest <> [] /\ Forall (fun s => Path.plain s = true) rest /\
         fs !! Path.of_segments (bsegs ++ more ++ rest) = Some (Fs.File c) /\
         (forall n, 0 < n < length rest ->
            fs !! Path.of_segments (bsegs ++ more ++ take n rest)
              = Some Fs.Dir) /\
         rel = String.concat "/" (more ++ rest)) /\
    FsServer.list_files cwd (Path.of_segments bsegs) minimatch pattern
      (Some directory) fs
    = (Ok match List.filter (fun file => minimatch file pattern) allFiles with
          | [] => "No files matching pattern '" +:+ pattern
                  +:+ "' found in '" +:+ directory +:+ "'"
          | matchingFiles => String.concat Str.nl matchingFiles
          end, fs).
Proof.
  intros Hcan Hcwd Hb Hp Hss Hdir.
  destruct (found_inside cwd (Path.of_segments bsegs) directory searchDir fs
              Hcan Hcwd Hp Hdir) as (allFiles & Hrun & Hspec).
  exists allFiles. split;
    [|apply (list_files_answer cwd (Path.of_segments bsegs) minimatch pattern
               directory searchDir allFiles fs Hp Hdir Hrun)].
  pose proof (segments_plain searchDir) as Hsplain. rewrite Hss in Hsplain.
  apply Forall_app in Hsplain as [_ Hmore].
  intros rel. rewrite Hspec. split.
  - intros (k & c & Hk & (rest & Hrne & Hks & Hmid) & ->).
    rewrite Hss in Hks, Hmid.
    pose proof (segments_plain k) as Hkplain. rewrite Hks in Hkplain.
    apply Forall_app in Hkplain as [_ Hrest].
    assert (Hkeq : k = Path.of_segments (bsegs ++ more ++ rest)).
    { rewrite <- (Hcan k _ Hk), Hks, <- app_assoc. reflexivity. }
    exists rest, c. split; [exact Hrne|]. split; [exact Hrest|].
    split; [rewrite <- Hkeq; exact Hk|]. split.
    + intros n Hn. specialize (Hmid n Hn). rewrite <- app_assoc in Hmid.
      exact Hmid.
    + rewrite Hkeq. apply relative_inside; [exact Hb | |].
      * apply Forall_app. split; assumption.
      * destruct more; [exact Hrne | discriminate].
  - intros (rest & c & Hrne & Hrest & Hk & Hmid & ->).
    assert (Hall : Forall (fun s => Path.plain s = true) (bsegs ++ more ++ rest)).
    { apply Forall_app. split; [exact Hb|]. apply Forall_app. split; assumption. }
    exists (Path.of_segments (bsegs ++ more ++ rest)), c.
    split; [exact Hk|]. split.
    + exists rest. split; [exact Hrne|]. rewrite Hss. split.
      * rewrite segments_of_segments by exact Hall. rewrite <- app_assoc.
        reflexivity.
      * intros n Hn. rewrite <- app_assoc. apply Hmid. exact Hn.
    + symmetry. apply relative_inside; [exact Hb | |].
      * apply Forall_app. split; assumption.
      * destruct more; [exact Hrne | discriminate].
Qed.

End ListingRelative.

Lemma list_files_relative_witness :
  exists allFiles : list string,
    forall rel, rel ∈ allFiles <->
      exists rest c,
        rest <> [] /\ Forall (fun s => Path.plain s = true) rest /\
        Sample.fs !! Path.of_segments (["srv"; "app"] ++ [] ++ rest)
          = Some (Fs.File c) /\
        (forall n, 0 < n < length rest ->
           Sample.fs !! Path.of_segments (["srv"; "app"] ++ [] ++ take n rest)
             = Some Fs.Dir) /\
        rel = String.concat "/" ([] ++ rest).
Proof.
  destruct (list_files_relative "/" (fun _ _ => true) "*" "." "/srv/app"
              ["srv"; "app"] [] Sample.fs canonical_sample eq_refl
              ltac:(repeat constructor) eq_refl eq_refl eq_refl)
    as (allFiles & Hspec & _).
  exists allFiles. exact Hspec.
Defined.
